(** * wordmap_generator: keyword extraction and frequency aggregation

    A shallow embedding of [wordmap_generator.py].  Python [str] values are
    modelled as [string]; a character is classified by its code point.  The
    classification follows Python on the ASCII range (code points below 128),
    which is the alphabet the program's heuristics are written for; bytes
    from 128 upwards are treated as uncased symbols that are neither digits,
    white space nor word characters.  Python [set] literals are [gset string],
    the [dict] literal and the [Counter] are [gmap]s. *)

From Stdlib Require Import Ascii String List Arith Bool Lia Sorted.
From stdpp Require Import base option list strings gmap.

Local Open Scope string_scope.
Local Open Scope list_scope.
Local Open Scope nat_scope.

(** ** Characters *)

Definition code (c : ascii) : nat := nat_of_ascii c.

(** [c.isdigit()] and the regular-expression class [\d]. *)
Definition char_isdigit (c : ascii) : bool :=
  (48 <=? code c) && (code c <=? 57).

(** The regular-expression class [[a-z]]; also [c.islower()]. *)
Definition char_islower (c : ascii) : bool :=
  (97 <=? code c) && (code c <=? 122).

(** [c.isupper()]. *)
Definition char_isupper (c : ascii) : bool :=
  (65 <=? code c) && (code c <=? 90).

(** [c.isspace()], the class [\s] and the separators of [str.split()]:
    tab, line feed, vertical tab, form feed, carriage return, the four
    separators 0x1c to 0x1f, and the space. *)
Definition char_isspace (c : ascii) : bool :=
  ((9 <=? code c) && (code c <=? 13)) ||
  ((28 <=? code c) && (code c <=? 31)) ||
  (code c =? 32).

(** The regular-expression class [\w]. *)
Definition char_isword (c : ascii) : bool :=
  char_isdigit c || char_islower c || char_isupper c || (code c =? 95).

(** [c.lower()]. *)
Definition char_lower (c : ascii) : ascii :=
  if char_isupper c then ascii_of_nat (code c + 32) else c.

Definition hyphen : ascii := "-"%char.
Definition space : ascii := " "%char.
Definition newline : ascii := ascii_of_nat 10.

(** ** Strings *)

Fixpoint str_map (f : ascii -> ascii) (s : string) : string :=
  match s with
  | EmptyString => EmptyString
  | String c r => String (f c) (str_map f r)
  end.

Fixpoint str_forall (p : ascii -> bool) (s : string) : bool :=
  match s with
  | EmptyString => true
  | String c r => p c && str_forall p r
  end.

Fixpoint str_exists (p : ascii -> bool) (s : string) : bool :=
  match s with
  | EmptyString => false
  | String c r => p c || str_exists p r
  end.

(** Python truth value of a string: non-empty. *)
Definition truthy (s : string) : bool :=
  match s with
  | EmptyString => false
  | String _ _ => true
  end.

(** [s.lower()]. *)
Definition lower (s : string) : string := str_map char_lower s.

(** [s.isdigit()]: every character is a digit and there is at least one. *)
Definition isdigit (s : string) : bool := truthy s && str_forall char_isdigit s.

(** [s.isupper()]: no cased character is lowercase and there is at least one
    cased character. *)
Definition isupper (s : string) : bool :=
  negb (str_exists char_islower s) && str_exists char_isupper s.

(** [c in chars]. *)
Definition char_in (chars : string) (c : ascii) : bool :=
  str_exists (Ascii.eqb c) chars.

Fixpoint lstrip (p : ascii -> bool) (s : string) : string :=
  match s with
  | EmptyString => EmptyString
  | String c r => if p c then lstrip p r else s
  end.

Fixpoint rstrip (p : ascii -> bool) (s : string) : string :=
  match s with
  | EmptyString => EmptyString
  | String c r =>
      match rstrip p r with
      | EmptyString => if p c then EmptyString else String c EmptyString
      | r' => String c r'
      end
  end.

(** [s.strip(chars)]. *)
Definition strip (chars : string) (s : string) : string :=
  rstrip (char_in chars) (lstrip (char_in chars) s).

(** [s.strip()]. *)
Definition strip_space (s : string) : string :=
  rstrip char_isspace (lstrip char_isspace s).

(** [s.split()]: the maximal runs of characters that are not white space. *)
Fixpoint split (s : string) : list string :=
  match s with
  | EmptyString => []
  | String c r =>
      if char_isspace c then split r
      else
        match r with
        | EmptyString => [String c EmptyString]
        | String d _ =>
            if char_isspace d then String c EmptyString :: split r
            else
              match split r with
              | t :: ts => String c t :: ts
              | [] => [String c EmptyString]
              end
        end
  end.

(** ** Lexical filters *)

(** The stop-word set, as the literal is written (a set: repeated elements
    count once). *)
Definition STOP_WORDS : gset string :=
  list_to_set [
    "a"; "an"; "and"; "are"; "as"; "at"; "be"; "by"; "for"; "from"; "has";
    "he"; "in"; "is"; "it"; "its"; "of"; "on"; "that"; "the"; "to"; "was";
    "will"; "with"; "i"; "am"; "my"; "we"; "this"; "have"; "been"; "would";
    "using"; "use"; "also"; "can"; "may"; "or"; "but"; "if"; "so"; "than";
    "do"; "does"; "did"; "which"; "these"; "those"; "such"; "into";
    "through"; "during"; "before"; "after"; "above"; "below"; "between";
    "under"; "over"; "both"; "each"; "few"; "more"; "most"; "other"; "some";
    "there"; "their"; "them"; "then"; "when"; "where"; "who"; "why"; "how";
    "all"; "any"; "been"; "being"; "could"; "having"; "her"; "here"; "him";
    "his"; "me"; "not"; "now"; "only"; "our"; "out"; "own"; "same"; "should";
    "their"; "theirs"; "them"; "themselves"; "then"; "there"; "they"; "up";
    "very"; "what"; "which"; "while"; "who"; "whom"; "your"; "yours";
    "yourself"; "yourselves"; "about"; "via"; "via"; "via"; "want"; "like";
    "need"; "get"; "work"; "working"; "used"; "try"; "trying"; "test";
    "testing"; "currently"; "able"; "plan"; "planning"; "etc"; "just";
    "really"; "please"; "thanks"; "thank"; "hi"; "hello"; "hey"; "one";
    "two"; "three"; "morphocloud"; "university"; "instance"; "create";
    "created"; "creating"; "participant"; "workshop"; "github"; "issue";
    "well"; "attending"; "orcid"; "usa"; "america"; "american"; "states";
    "united"; "california"; "texas"; "florida"; "new"; "york"; "washington";
    "oregon"; "colorado"; "arizona"; "utah"; "nevada"; "illinois"; "ohio";
    "michigan"; "pennsylvania"; "massachusetts"; "virginia"; "georgia";
    "north"; "carolina"; "south"; "tennessee"; "kentucky"; "alabama";
    "louisiana"; "mississippi"; "arkansas"; "oklahoma"; "kansas"; "nebraska";
    "iowa"; "missouri"; "wisconsin"; "minnesota"; "indiana"; "maryland";
    "delaware"; "connecticut"; "rhode"; "island"; "vermont"; "hampshire";
    "maine"; "west"; "seattle"; "portland"; "denver"; "phoenix"; "chicago";
    "boston"; "atlanta"; "houston"; "dallas"; "austin"; "miami";
    "philadelphia"; "detroit"; "baltimore"; "japan"; "japanese"; "tokyo";
    "kyoto"; "osaka"; "china"; "chinese"; "beijing"; "shanghai"; "canada";
    "canadian"; "toronto"; "vancouver"; "montreal"; "ottawa"; "england";
    "london"; "britain"; "british"; "uk"; "scotland"; "wales"; "ireland";
    "france"; "french"; "paris"; "germany"; "german"; "berlin"; "spain";
    "spanish"; "madrid"; "italy"; "italian"; "rome"; "netherlands"; "dutch";
    "amsterdam"; "belgium"; "brussels"; "switzerland"; "swiss"; "sweden";
    "stockholm"; "norway"; "denmark"; "finland"; "austria"; "poland";
    "portugal"; "greece"; "russia"; "australia"; "australian"; "sydney";
    "melbourne"; "zealand"; "auckland"; "india"; "indian"; "delhi"; "mumbai";
    "brazil"; "brazilian"; "mexico"; "mexican"; "argentina"; "chile"; "peru";
    "colombia"; "africa"; "african"; "kenya"; "egypt"; "europe"; "european";
    "asia"; "asian"; "kyushu"; "louisville"
  ].

(** Common first names to filter out. *)
Definition COMMON_NAMES : gset string :=
  list_to_set [
    "john"; "mary"; "michael"; "sarah"; "david"; "james"; "robert";
    "jennifer"; "william"; "linda"; "richard"; "patricia"; "charles";
    "barbara"; "joseph"; "elizabeth"; "thomas"; "susan"; "christopher";
    "jessica"; "daniel"; "karen"; "matthew"; "nancy"; "anthony"; "lisa";
    "mark"; "betty"; "donald"; "margaret"; "steven"; "sandra"; "paul";
    "ashley"; "andrew"; "kimberly"; "joshua"; "emily"; "kenneth"; "donna";
    "kevin"; "michelle"; "brian"; "carol"; "george"; "amanda"; "edward";
    "melissa"; "ronald"; "deborah"; "timothy"; "stephanie"; "jason";
    "rebecca"; "jeffrey"; "sharon"; "ryan"; "laura"; "jacob"; "cynthia";
    "gary"; "kathleen"; "nicholas"; "amy"; "eric"; "shirley"; "jonathan";
    "angela"; "stephen"; "helen"; "larry"; "anna"; "justin"; "brenda";
    "scott"; "pamela"; "brandon"; "nicole"; "benjamin"; "emma"; "samuel";
    "samantha"; "raymond"; "katherine"; "patrick"; "christine"; "alexander";
    "debra"; "jack"; "rachel"; "dennis"; "catherine"; "jerry"; "carolyn";
    "tyler"; "janet"; "aaron"; "ruth"; "jose"; "maria"; "adam"; "heather";
    "henry"; "diane"; "nathan"; "virginia"; "douglas"; "julie"; "zachary";
    "joyce"; "peter"; "victoria"; "kyle"; "olivia"; "walter"; "kelly";
    "ethan"; "christina"; "jeremy"; "lauren"; "harold"; "joan"; "keith";
    "evelyn"; "christian"; "judith"; "roger"; "megan"; "noah"; "cheryl";
    "gerald"; "andrea"; "carl"; "hannah"; "terry"; "jacqueline"; "sean";
    "martha"; "austin"; "gloria"; "arthur"; "teresa"; "lawrence"; "ann";
    "jesse"; "sara"; "dylan"; "madison"; "bryan"; "frances"; "joe";
    "kathryn"; "jordan"; "janice"; "billy"; "jean"; "bruce"; "abigail";
    "albert"; "sophia"; "willie"; "isabella"; "gabriel"; "charlotte";
    "logan"; "amelia"; "alan"; "mia"; "juan"; "harper"; "wayne"; "evelyn";
    "roy"; "ella"; "ralph"; "scarlett"; "randy"; "grace"; "eugene"; "chloe";
    "vincent"; "lily"; "russell"; "ellie"; "elijah"; "lucy"; "louis";
    "addison"; "bobby"; "natalie"; "philip"; "lillian"; "johnny"; "leah";
    "karly"; "cohen"; "murat"; "maga"; "luke"; "rose"; "yuto"; "sano";
    "anthony"; "lee"; "annika"; "dawley"; "participant"
  ].

(** Canonical forms for specific word groups. *)
Definition CANONICAL_FORMS : gmap string string :=
  list_to_map [
    ("segment", "segmentation");
    ("segments", "segmentation");
    ("segmenting", "segmentation");
    ("segmentation", "segmentation");
    ("morphometric", "morphometrics");
    ("morphometrics", "morphometrics")
  ].

(** [word in s] for a set of strings. *)
Definition mem (word : string) (s : gset string) : bool :=
  bool_decide (word ∈ s).

(** ** Stemming (defined by the program, called nowhere) *)

Definition suffixes : list string :=
  ["ing"; "ed"; "es"; "s"; "tion"; "ation"; "ly"; "ment"; "ness"; "er"; "or";
   "ist"; "ity"; "al"].

(** [word.endswith(suffix)]. *)
Definition endswith (word suffix : string) : bool :=
  (String.length suffix <=? String.length word) &&
  String.eqb
    (substring (String.length word - String.length suffix)
       (String.length suffix) word)
    suffix.

Fixpoint stem_loop (word : string) (sfx : list string) : string :=
  match sfx with
  | [] => word
  | suffix :: rest =>
      if endswith word suffix &&
         (String.length suffix + 2 <? String.length word)
      then substring 0 (String.length word - String.length suffix) word
      else stem_loop word rest
  end.

Definition simple_stem (word : string) : string :=
  let word := lower word in
  stem_loop word suffixes.

(** ** Section extractor *)

(** The pattern of [extract_description] is
    [### Description\s*\n\n(.*?)(?=\n### |\Z)] under DOTALL and IGNORECASE.
    [re.search] tries the start positions from left to right; at one start
    position the matcher is the composition of the three functions below. *)

Definition heading_label : string := "### Description".

(** The lookahead text [\n### ]. *)
Definition next_heading : string := String newline "### ".

(** A literal matched at the start of [s], letters compared without case;
    the result is the text after it. *)
Fixpoint match_literal (lit s : string) : option string :=
  match lit, s with
  | EmptyString, _ => Some s
  | String a lit', String c s' =>
      if Ascii.eqb (char_lower a) (char_lower c) then match_literal lit' s'
      else None
  | String _ _, EmptyString => None
  end.

(** [\s*\n\n] at the start of [s]: the star is greedy, so one more white-space
    character is taken first and the two line feeds are tried here only when
    that fails.  What follows in the pattern matches at every position, so the
    first success is the match. *)
Fixpoint match_blank (s : string) : option string :=
  match s with
  | EmptyString => None
  | String c r =>
      match (if char_isspace c then match_blank r else None) with
      | Some rest => Some rest
      | None =>
          match r with
          | String d rest =>
              if Ascii.eqb c newline && Ascii.eqb d newline then Some rest
              else None
          | EmptyString => None
          end
      end
  end.

(** [(.*?)(?=\n### |\Z)]: the lazy group stops at the first position where
    the next heading follows or the text ends. *)
Fixpoint match_section (s : string) : string :=
  if String.prefix next_heading s then EmptyString
  else
    match s with
    | EmptyString => EmptyString
    | String c r => String c (match_section r)
    end.

(** The pattern tried at the start of [s]; the result is group 1. *)
Definition match_description (s : string) : option string :=
  match match_literal heading_label s with
  | Some after_label =>
      match match_blank after_label with
      | Some content => Some (match_section content)
      | None => None
      end
  | None => None
  end.

(** [re.search]: the leftmost start position at which the pattern matches. *)
Fixpoint search_description (s : string) : option string :=
  match match_description s with
  | Some group1 => Some group1
  | None =>
      match s with
      | EmptyString => None
      | String _ r => search_description r
      end
  end.

(** [extract_description(body_text)]; [None] is an absent ([null]) body. *)
Definition extract_description (body_text : option string) : string :=
  match body_text with
  | None => ""
  | Some body_text =>
      if negb (truthy body_text) then ""
      else
        match search_description body_text with
        | Some group1 => strip_space group1
        | None => ""
        end
  end.

(** ** Name heuristic *)

(** [word[0]] of a non-empty string. *)
Definition first_char (word : string) : ascii :=
  match word with
  | String c _ => c
  | EmptyString => zero
  end.

Definition is_likely_name (word : string) : bool :=
  if negb (truthy word) || (String.length word =? 0) then false
  else if mem (lower word) COMMON_NAMES then true
  else if char_isupper (first_char word) && (2 <? String.length word) then
    if isupper word then false else true
  else false.

(** ** Keyword normalizer *)

(** [re.sub(r'\d+[a-z]*', '', text)].  The scan is outside a match, inside the
    digits of a match, or inside its trailing letters; the characters of a
    match are dropped and nothing is put in their place. *)
Inductive scan_state : Type := Outside | InDigits | InLetters.

Fixpoint sub_numbers_from (st : scan_state) (text : string) : string :=
  match text with
  | EmptyString => EmptyString
  | String c r =>
      if char_isdigit c then sub_numbers_from InDigits r
      else if char_islower c then
        match st with
        | Outside => String c (sub_numbers_from Outside r)
        | InDigits | InLetters => sub_numbers_from InLetters r
        end
      else String c (sub_numbers_from Outside r)
  end.

Definition sub_numbers (text : string) : string :=
  sub_numbers_from Outside text.

(** [re.sub(r'[^\w\s-]', ' ', text)]. *)
Definition sub_punct_char (c : ascii) : ascii :=
  if char_isword c || char_isspace c || Ascii.eqb c hyphen then c else space.

Definition sub_punct (text : string) : string := str_map sub_punct_char text.

(** [CANONICAL_FORMS[word] if word in CANONICAL_FORMS else word]. *)
Definition canonical_form (word : string) : string :=
  match CANONICAL_FORMS !! word with
  | Some canonical => canonical
  | None => word
  end.

(** The token after [word.strip('-')]. *)
Definition strip_word (word : string) : string := strip "-" word.

(** The original-case version used for name checking at index [i]. *)
Definition orig_word_at (original_words : list string) (i : nat)
    (word : string) : string :=
  if i <? length original_words
  then strip "-.,!?;:" (nth i original_words "")
  else word.

(** The filter of the loop body, on the stripped token and its counterpart. *)
Definition keep_word (word orig_word : string) : bool :=
  (3 <=? String.length word) &&
  negb (mem word STOP_WORDS) &&
  negb (isdigit word) &&
  negb (is_likely_name orig_word).

(** The loop [for i, word in enumerate(words)], appending to [keywords]. *)
Fixpoint keywords_loop (original_words : list string) (i : nat)
    (words : list string) (keywords : list string) : list string :=
  match words with
  | [] => keywords
  | word :: rest =>
      let word := strip_word word in
      let orig_word := orig_word_at original_words i word in
      let keywords :=
        if keep_word word orig_word
        then keywords ++ [canonical_form word]
        else keywords in
      keywords_loop original_words (S i) rest keywords
  end.

(** The lowercased, cleaned text that is split into [words]. *)
Definition clean_text (text : string) : string :=
  sub_punct (sub_numbers (lower text)).

Definition extract_keywords (text : string) : list string :=
  if negb (truthy text) then []
  else
    let original_text := text in
    let text := clean_text text in
    let original_words := split original_text in
    let words := split text in
    keywords_loop original_words 0 words [].

(** ** Frequency aggregator *)

Record issue : Type := { body : option string }.

(** [Counter.update(keywords)]: each element adds one to its count. *)
Definition count_one (counts : gmap string nat) (word : string)
    : gmap string nat :=
  <[word := S (default 0 (counts !! word))]> counts.

Definition update (counts : gmap string nat) (keywords : list string)
    : gmap string nat :=
  foldl count_one counts keywords.

(** One iteration of the loop over the issues in [main]; the state is
    [keyword_counts] and [processed_count]. *)
Definition process_issue (st : gmap string nat * nat) (i : issue)
    : gmap string nat * nat :=
  let description := extract_description (body i) in
  if truthy description
  then (update (fst st) (extract_keywords description), S (snd st))
  else st.

Definition process_issues (st : gmap string nat * nat) (issues : list issue)
    : gmap string nat * nat :=
  foldl process_issue st issues.

(** The frequency table [main] builds from the loaded issues. *)
Definition keyword_counts (issues : list issue) : gmap string nat :=
  fst (process_issues (∅, 0) issues).

(** ** Running the pipeline *)

Definition scenario_body : string :=
  "### Description" ++ String newline (String newline
    "We need segmentation of cells using deep learning.").

(** ** Notions used in the statements *)

(** The stripped tokens that pass the filter of the loop body, in order. *)
Fixpoint passing_from (original_words : list string) (i : nat)
    (words : list string) : list string :=
  match words with
  | [] => []
  | word :: rest =>
      let word := strip_word word in
      if keep_word word (orig_word_at original_words i word)
      then word :: passing_from original_words (S i) rest
      else passing_from original_words (S i) rest
  end.

Definition passing_tokens (text : string) : list string :=
  passing_from (split text) 0 (split (clean_text text)).

(** The number of times [word] occurs in [keywords]. *)
Fixpoint occurrences (word : string) (keywords : list string) : nat :=
  match keywords with
  | [] => 0
  | k :: rest =>
      (if String.eqb k word then 1 else 0) + occurrences word rest
  end.

(** The count [Counter.update] leaves at [word]: untouched when the word
    does not occur, otherwise the old count (zero when absent) plus the
    number of occurrences. *)
Definition updated_count (old : option nat) (n : nat) : option nat :=
  match n with
  | 0 => old
  | S _ => Some (default 0 old + n)
  end.

(** The keywords one issue contributes. *)
Definition issue_keywords (i : issue) : list string :=
  extract_keywords (extract_description (body i)).

Definition all_keywords (issues : list issue) : list string :=
  concat (map issue_keywords issues).

(** A character that is not an uppercase letter. *)
Definition not_upper (c : ascii) : bool := negb (char_isupper c).

(** Whether [s] starts with a character satisfying [p]. *)
Definition starts_with (p : ascii -> bool) (s : string) : bool :=
  match s with
  | EmptyString => false
  | String c _ => p c
  end.

(** [body] contains the heading: the label in any letter case, white space,
    and a blank line (two line feeds). *)
Definition has_heading (body : string) : Prop :=
  exists before label blank after,
    body = before +:+ label +:+ blank +:+
           String newline (String newline after) /\
    lower label = lower heading_label /\
    str_forall char_isspace blank = true.

(** Whether [needle] occurs somewhere in [s]. *)
Fixpoint contains (needle s : string) : bool :=
  String.prefix needle s ||
  match s with
  | EmptyString => false
  | String _ r => contains needle r
  end.

(** Whether the last character of [s] satisfies [p]. *)
Fixpoint ends_with (p : ascii -> bool) (s : string) : bool :=
  match s with
  | EmptyString => false
  | String c r =>
      match r with
      | EmptyString => p c
      | String _ _ => ends_with p r
      end
  end.

(** The characters a keyword is made of: lowercase letters, the underscore
    and the hyphen. *)
Definition keyword_char (c : ascii) : bool :=
  char_islower c || Ascii.eqb c "_"%char || Ascii.eqb c hyphen.

(** The characters of the cleaned text: white space and keyword
    characters. *)
Definition clean_char (c : ascii) : bool :=
  char_isspace c || keyword_char c.

(** The filter left for a token of text that is already clean: long enough,
    no stop word, no common first name. *)
Definition plain_keep (word : string) : bool :=
  (3 <=? String.length word) &&
  negb (mem word STOP_WORDS) &&
  negb (mem word COMMON_NAMES).

(** [counts[word]]: a [Counter] answers zero for a missing key. *)
Definition count_of (counts : gmap string nat) (word : string) : nat :=
  default 0 (counts !! word).

(** The sum of all counts of a table. *)
Definition total_count (counts : gmap string nat) : nat :=
  map_fold (fun _ n acc => n + acc) 0 counts.

(** ** Reporting *)

(** The [Counter] as Python keeps it, a [dict]: the entries in the order in
    which their keys were first inserted.  [items_count_one] is one step of
    [Counter.update] on it. *)
Fixpoint items_count_one (items : list (string * nat)) (word : string)
    : list (string * nat) :=
  match items with
  | [] => [(word, 1)]
  | (k, n) :: rest =>
      if String.eqb k word then (k, S n) :: rest
      else (k, n) :: items_count_one rest word
  end.

Definition items_update (items : list (string * nat))
    (keywords : list string) : list (string * nat) :=
  foldl items_count_one items keywords.

(** The loop of [main] on the ordered entries; [keyword_counts.items()]. *)
Definition process_issue_items (items : list (string * nat)) (i : issue)
    : list (string * nat) :=
  let description := extract_description (body i) in
  if truthy description
  then items_update items (extract_keywords description)
  else items.

Definition counter_items (issues : list issue) : list (string * nat) :=
  foldl process_issue_items [] issues.

(** [sorted(items, key=lambda x: x[1], reverse=True)]: by count, largest
    first; the sort is stable, so entries with equal counts keep the order
    they have in [items]. *)
Fixpoint insert_ranked (x : string * nat) (l : list (string * nat))
    : list (string * nat) :=
  match l with
  | [] => [x]
  | y :: l' =>
      if snd y <=? snd x then x :: y :: l' else y :: insert_ranked x l'
  end.

Definition ranked (items : list (string * nat)) : list (string * nat) :=
  foldr insert_ranked [] items.

(** What [main] reports: nothing when the table is empty, otherwise the
    numbered listing of the first fifty ranked entries and the rows of the
    CSV file. *)
Inductive outcome : Type :=
  | NoKeywords
  | Report (top : list (nat * (string * nat)))
           (csv_rows : list (string * nat)).

Definition main_outcome (issues : list issue) : outcome :=
  match counter_items issues with
  | [] => NoKeywords
  | items =>
      Report (imap (fun i entry => (S i, entry)) (take 50 (ranked items)))
             (ranked items)
  end.

(** The keywords in the order in which they are first emitted. *)
Definition first_seen (keywords : list string) : list string :=
  foldl (fun seen word => if decide (word ∈ seen) then seen
                          else seen ++ [word])
    [] keywords.

(** Counts from largest to smallest. *)
Definition descending (rows : list (string * nat)) : Prop :=
  StronglySorted (fun a b => snd b <= snd a) rows.

(** The elements of the two word sets as lists, as their literals are
    written. *)
Definition stop_word_list : list string :=
  ltac:(let s := eval unfold STOP_WORDS in STOP_WORDS in
        match s with list_to_set ?l => exact l end).

Definition common_name_list : list string :=
  ltac:(let s := eval unfold COMMON_NAMES in COMMON_NAMES in
        match s with list_to_set ?l => exact l end).

(** A document whose description is the text of
    [extract_keywords_misaligned]. *)
Definition example_issue : issue :=
  {| body := Some ("### Description" +:+ String newline (String newline
       "micro2CT scans of 3D Skulls from John, MRI 2023data")) |}.

(** * Properties *)

(** ** Running the definitions *)

Example split_example :
  split "  deep   learning. " = ["deep"; "learning."].
Proof. reflexivity. Qed.

Example strip_example :
  strip "-.,!?;:" "--(CT)," = "(CT)" /\ strip "-" "---" = "" /\
  strip_space " a b  " = "a b".
Proof. repeat split. Qed.

Example mem_examples :
  mem "using" STOP_WORDS = true /\ mem "cells" STOP_WORDS = false /\
  mem "john" COMMON_NAMES = true /\ mem "" COMMON_NAMES = false /\
  CANONICAL_FORMS !! "segments" = Some "segmentation" /\
  CANONICAL_FORMS !! "cells" = None.
Proof. vm_compute. repeat split. Qed.

Example simple_stem_examples :
  simple_stem "cells" = "cell" /\ simple_stem "Learning" = "learn" /\
  simple_stem "deep" = "deep".
Proof. repeat split. Qed.

Example extract_keywords_misaligned :
  extract_keywords "micro2CT scans of 3D Skulls from John, MRI 2023data"
  = ["micro"; "scans"; "skulls"; "john"].
Proof. vm_compute. reflexivity. Qed.

(** ** The name heuristic *)

Lemma mem_true (word : string) (s : gset string) :
  mem word s = true <-> word ∈ s.
Proof. unfold mem. apply bool_decide_eq_true. Qed.

Lemma mem_false (word : string) (s : gset string) :
  mem word s = false <-> word ∉ s.
Proof. unfold mem. apply bool_decide_eq_false. Qed.

Lemma empty_not_common_name : "" ∉ COMMON_NAMES.
Proof. apply mem_false. vm_compute. reflexivity. Qed.

Lemma is_likely_name_cons (c : ascii) (r : string) :
  is_likely_name (String c r) =
  if mem (lower (String c r)) COMMON_NAMES then true
  else char_isupper c && (2 <? String.length (String c r)) &&
       negb (isupper (String c r)).
Proof.
  unfold is_likely_name.
  change (negb (truthy (String c r)) || (String.length (String c r) =? 0))
    with false.
  change (first_char (String c r)) with c.
  cbv iota.
  destruct (mem (lower (String c r)) COMMON_NAMES); [reflexivity |].
  destruct (char_isupper c && (2 <? String.length (String c r)));
    [| reflexivity].
  destruct (isupper (String c r)); reflexivity.
Qed.

(** C3. The name heuristic on one original-case token: false for the empty
    token; true when the lowercased token is a common first name; otherwise,
    with an uppercase first character and more than two characters, false
    when the whole token is uppercase and true when it is not; false in all
    remaining cases.  It is true for "John" and false for "CT". *)
Theorem is_likely_name_policy :
  is_likely_name "" = false /\
  (forall w, lower w ∈ COMMON_NAMES -> is_likely_name w = true) /\
  (forall w, lower w ∉ COMMON_NAMES ->
     char_isupper (first_char w) = true -> 2 < String.length w ->
     is_likely_name w = negb (isupper w)) /\
  (forall w, lower w ∉ COMMON_NAMES ->
     char_isupper (first_char w) = false \/ String.length w <= 2 ->
     is_likely_name w = false) /\
  is_likely_name "John" = true /\
  is_likely_name "CT" = false.
Proof.
  split; [reflexivity |].
  split.
  { intros w Hin. destruct w as [| c r].
    - exfalso. exact (empty_not_common_name Hin).
    - rewrite is_likely_name_cons.
      apply mem_true in Hin. rewrite Hin. reflexivity. }
  split.
  { intros w Hnot Hup Hlen.
    destruct w as [| c r]; [cbn in Hlen; lia |].
    rewrite is_likely_name_cons.
    apply mem_false in Hnot. rewrite Hnot.
    change (first_char (String c r)) with c in Hup. rewrite Hup.
    apply Nat.ltb_lt in Hlen. rewrite Hlen. reflexivity. }
  split.
  { intros w Hnot Hcase.
    destruct w as [| c r]; [reflexivity |].
    rewrite is_likely_name_cons.
    apply mem_false in Hnot. rewrite Hnot.
    change (first_char (String c r)) with c in Hcase.
    destruct Hcase as [Hup | Hlen].
    - rewrite Hup. reflexivity.
    - apply Nat.ltb_ge in Hlen. rewrite Hlen, andb_false_r. reflexivity. }
  split; vm_compute; reflexivity.
Qed.

Lemma is_likely_name_policy_witness :
  is_likely_name "Mary" = true /\
  is_likely_name "Skull" = negb (isupper "Skull") /\
  is_likely_name "MRI" = negb (isupper "MRI") /\
  is_likely_name "cells" = false /\
  is_likely_name "Ct" = false.
Proof.
  destruct is_likely_name_policy as (_ & Hname & Hcap & Hrest & _).
  split; [apply Hname; apply mem_true; vm_compute; reflexivity |].
  split; [apply Hcap;
          [apply mem_false; vm_compute; reflexivity | reflexivity | cbn; lia] |].
  split; [apply Hcap;
          [apply mem_false; vm_compute; reflexivity | reflexivity | cbn; lia] |].
  split; [apply Hrest;
          [apply mem_false; vm_compute; reflexivity | left; reflexivity] |].
  apply Hrest; [apply mem_false; vm_compute; reflexivity | right; cbn; lia].
Defined.

(** ** Canonical rewriting *)

Lemma canonical_entries (k v : string) :
  CANONICAL_FORMS !! k = Some v ->
  v = "segmentation" \/ v = "morphometrics".
Proof.
  unfold CANONICAL_FORMS. cbn [list_to_map foldr uncurry fst snd].
  repeat (rewrite lookup_insert_Some; intros [[_ <-] | [_ H]];
          [auto | revert H]).
  rewrite lookup_empty. discriminate.
Qed.

Lemma canonical_values_fixed (v : string) :
  v = "segmentation" \/ v = "morphometrics" ->
  CANONICAL_FORMS !! v = Some v.
Proof. intros [-> | ->]; vm_compute; reflexivity. Qed.

(** C4. Canonical rewriting is idempotent: looking a word up twice gives the
    same result as once, and every value of the canonical-form map is a key
    that maps to itself. *)
Theorem canonical_form_idempotent :
  (forall w, canonical_form (canonical_form w) = canonical_form w) /\
  (forall k v, CANONICAL_FORMS !! k = Some v ->
     CANONICAL_FORMS !! v = Some v /\ canonical_form v = v).
Proof.
  assert (Hval : forall k v, CANONICAL_FORMS !! k = Some v ->
                   CANONICAL_FORMS !! v = Some v /\ canonical_form v = v).
  { intros k v Hk. apply canonical_entries in Hk.
    apply canonical_values_fixed in Hk.
    split; [exact Hk |]. unfold canonical_form. rewrite Hk. reflexivity. }
  split; [| exact Hval].
  intros w. unfold canonical_form at 2 3.
  destruct (CANONICAL_FORMS !! w) as [v |] eqn:Hw.
  - apply (Hval w v Hw).
  - unfold canonical_form. rewrite Hw. reflexivity.
Qed.

Lemma canonical_form_idempotent_witness :
  CANONICAL_FORMS !! "segmentation" = Some "segmentation" /\
  canonical_form "segmentation" = "segmentation".
Proof.
  apply (proj2 canonical_form_idempotent "segments" "segmentation").
  vm_compute. reflexivity.
Defined.

(** ** The loop of the keyword normalizer *)

Lemma keywords_loop_passing (original_words words : list string) :
  forall i keywords,
    keywords_loop original_words i words keywords
    = keywords ++ map canonical_form (passing_from original_words i words).
Proof.
  induction words as [| word rest IH]; intros i keywords;
    cbn [keywords_loop passing_from].
  - rewrite app_nil_r. reflexivity.
  - rewrite IH.
    destruct (keep_word _ _); [| reflexivity].
    rewrite map_cons, <- app_assoc. reflexivity.
Qed.

Lemma extract_keywords_passing (text : string) :
  extract_keywords text = map canonical_form (passing_tokens text).
Proof.
  unfold extract_keywords, passing_tokens.
  destruct text as [| c r]; [reflexivity |].
  cbn [truthy negb]. apply keywords_loop_passing.
Qed.

Lemma passing_from_keep (original_words words : list string) :
  forall i word,
    In word (passing_from original_words i words) ->
    exists orig_word, keep_word word orig_word = true.
Proof.
  induction words as [| w rest IH]; intros i word; cbn [passing_from In];
    [tauto |].
  destruct (keep_word _ _) eqn:Hkeep; cbn [In].
  - intros [<- | Hin]; [eauto | eapply IH; eauto].
  - apply IH.
Qed.

Lemma keep_word_length (word orig_word : string) :
  keep_word word orig_word = true ->
  3 <= String.length word /\ (word ∉ STOP_WORDS) /\ isdigit word = false /\
  is_likely_name orig_word = false.
Proof.
  unfold keep_word. intros H.
  apply andb_prop in H as [H Hname].
  apply andb_prop in H as [H Hdig].
  apply andb_prop in H as [Hlen Hstop].
  apply negb_true_iff in Hname, Hdig, Hstop.
  apply Nat.leb_le in Hlen. apply mem_false in Hstop. auto.
Qed.

(** C6. Every token that passes the filter is emitted as the value of the
    canonical-form map when the stripped token is a key of it, and as the
    stripped token itself otherwise; the emitted keyword is not stemmed (the
    token "cells" is emitted whole although its stem is "cell"). *)
Theorem emitted_keyword_canonical_or_token :
  (forall text,
     Forall2
       (fun word keyword =>
          match CANONICAL_FORMS !! word with
          | Some canonical => keyword = canonical
          | None => keyword = word
          end)
       (passing_tokens text) (extract_keywords text)) /\
  (passing_tokens "cells" = ["cells"] /\ extract_keywords "cells" = ["cells"] /\
   simple_stem "cells" = "cell").
Proof.
  split.
  - intros text. rewrite extract_keywords_passing.
    induction (passing_tokens text) as [| word rest IH].
    + constructor.
    + rewrite map_cons. constructor; [| exact IH].
      unfold canonical_form. destruct (CANONICAL_FORMS !! word); reflexivity.
  - split; [| split]; vm_compute; reflexivity.
Qed.

(** ** Emitted keywords *)

Lemma extract_keywords_emitted (text keyword : string) :
  In keyword (extract_keywords text) ->
  exists word orig_word,
    keep_word word orig_word = true /\ keyword = canonical_form word.
Proof.
  rewrite extract_keywords_passing, in_map_iff.
  intros (word & <- & Hin).
  apply passing_from_keep in Hin as [orig_word Hkeep]. eauto.
Qed.

Lemma emitted_keyword_shape (text keyword : string) :
  In keyword (extract_keywords text) ->
  3 <= String.length keyword /\ isdigit keyword = false.
Proof.
  intros Hin.
  apply extract_keywords_emitted in Hin as (word & orig_word & Hkeep & ->).
  unfold canonical_form.
  destruct (CANONICAL_FORMS !! word) as [canonical |] eqn:Hcanon.
  - apply canonical_entries in Hcanon as [-> | ->]; split;
      (reflexivity || (cbn [String.length]; lia)).
  - apply keep_word_length in Hkeep. tauto.
Qed.

(** ** The frequency table *)

Lemma occurrences_app (word : string) (ks1 ks2 : list string) :
  occurrences word (ks1 ++ ks2) = occurrences word ks1 + occurrences word ks2.
Proof. induction ks1 as [| k ks1 IH]; cbn; [reflexivity | rewrite IH; lia]. Qed.

Lemma occurrences_pos (word : string) (keywords : list string) :
  0 < occurrences word keywords <-> In word keywords.
Proof.
  induction keywords as [| k rest IH]; cbn; [split; [lia | tauto] |].
  destruct (String.eqb_spec k word) as [-> | Hne].
  - split; [auto | lia].
  - cbn. rewrite IH. split; [auto | intros [? | ?]; [congruence | auto]].
Qed.

Lemma lookup_update (keywords : list string) :
  forall (counts : gmap string nat) (word : string),
    update counts keywords !! word
    = updated_count (counts !! word) (occurrences word keywords).
Proof.
  unfold update.
  induction keywords as [| k rest IH]; intros counts word; cbn;
    [reflexivity |].
  rewrite IH. unfold count_one.
  destruct (String.eqb_spec k word) as [-> | Hne].
  - rewrite lookup_insert_eq. cbn.
    destruct (occurrences word rest); cbn; f_equal; lia.
  - rewrite lookup_insert_ne by exact Hne. reflexivity.
Qed.

Lemma update_app (counts : gmap string nat) (ks1 ks2 : list string) :
  update counts (ks1 ++ ks2) = update (update counts ks1) ks2.
Proof. unfold update. apply foldl_app. Qed.

Lemma process_issue_counts (st : gmap string nat * nat) (i : issue) :
  fst (process_issue st i) = update (fst st) (issue_keywords i).
Proof.
  unfold process_issue, issue_keywords.
  destruct (extract_description (body i)); reflexivity.
Qed.

Lemma process_issues_counts (issues : list issue) :
  forall st,
    fst (process_issues st issues) = update (fst st) (all_keywords issues).
Proof.
  unfold process_issues, all_keywords.
  induction issues as [| i rest IH]; intros st; cbn; [reflexivity |].
  rewrite IH, process_issue_counts, update_app. reflexivity.
Qed.

Lemma lookup_keyword_counts (issues : list issue) (word : string) :
  keyword_counts issues !! word
  = updated_count None (occurrences word (all_keywords issues)).
Proof.
  unfold keyword_counts.
  rewrite process_issues_counts, lookup_update. cbn [fst].
  rewrite lookup_empty. reflexivity.
Qed.

Lemma in_all_keywords (issues : list issue) (word : string) :
  In word (all_keywords issues) <->
  exists i, In i issues /\ In word (issue_keywords i).
Proof.
  unfold all_keywords. rewrite in_concat. split.
  - intros (ks & Hks & Hin). apply in_map_iff in Hks as (i & <- & Hi). eauto.
  - intros (i & Hi & Hin). exists (issue_keywords i).
    split; [apply in_map; exact Hi | exact Hin].
Qed.

Lemma keyword_counts_present (issues : list issue) (word : string) (n : nat) :
  keyword_counts issues !! word = Some n ->
  n = occurrences word (all_keywords issues) /\ 1 <= n /\
  In word (all_keywords issues).
Proof.
  rewrite lookup_keyword_counts. unfold updated_count.
  destruct (occurrences word (all_keywords issues)) as [| m] eqn:Hocc;
    [discriminate |].
  intros [= <-]. cbn. split; [reflexivity |]. split; [lia |].
  apply occurrences_pos. lia.
Qed.

(** C2. Every keyword the normalizer emits, and so every key of the final
    frequency table (canonical rewrites included), has at least three
    characters and is not a string of digits. *)
Theorem keywords_long_and_not_numeric :
  (forall text keyword,
     In keyword (extract_keywords text) ->
     3 <= String.length keyword /\ isdigit keyword = false) /\
  (forall issues keyword,
     is_Some (keyword_counts issues !! keyword) ->
     3 <= String.length keyword /\ isdigit keyword = false).
Proof.
  split; [exact emitted_keyword_shape |].
  intros issues keyword [n Hn].
  apply keyword_counts_present in Hn as (_ & _ & Hin).
  apply in_all_keywords in Hin as (i & _ & Hin).
  exact (emitted_keyword_shape _ _ Hin).
Qed.

Lemma keywords_long_and_not_numeric_witness :
  (3 <= String.length "segmentation" /\ isdigit "segmentation" = false) /\
  (3 <= String.length "cells" /\ isdigit "cells" = false).
Proof.
  split.
  - apply (proj1 keywords_long_and_not_numeric "cells 2023 segments").
    vm_compute. right. left. reflexivity.
  - apply (proj2 keywords_long_and_not_numeric
             [ {| body := Some scenario_body |} ]).
    exists 1. vm_compute. reflexivity.
Defined.

(** C5. Aggregation is commutative over document order: the collections
    [A, B] and [B, A] give the same frequency table. *)
Theorem aggregation_commutes (A B : issue) :
  keyword_counts [A; B] = keyword_counts [B; A].
Proof.
  apply map_eq. intros word.
  rewrite !lookup_keyword_counts. f_equal.
  unfold all_keywords. cbn [map concat].
  rewrite !occurrences_app. cbn [occurrences]. lia.
Qed.

(** C10. Every count stored in the frequency table is at least one: an
    aggregation step keeps this invariant, and after any collection a key is
    present only with a positive count and only if some issue emitted it. *)
Theorem counts_positive :
  (forall (st : gmap string nat * nat) (i : issue),
     (forall word n, fst st !! word = Some n -> 1 <= n) ->
     forall word n, fst (process_issue st i) !! word = Some n -> 1 <= n) /\
  (forall issues word n,
     keyword_counts issues !! word = Some n ->
     1 <= n /\ exists i, In i issues /\ In word (issue_keywords i)).
Proof.
  split.
  - intros st i Hinv word n.
    rewrite process_issue_counts, lookup_update. unfold updated_count.
    destruct (occurrences word (issue_keywords i)) as [| m].
    + apply Hinv.
    + intros [= <-]. lia.
  - intros issues word n Hn.
    apply keyword_counts_present in Hn as (_ & Hpos & Hin).
    split; [exact Hpos |]. apply in_all_keywords. exact Hin.
Qed.

Lemma counts_positive_witness :
  1 <= 1 /\
  (1 <= 2 /\
   exists i, In i [ {| body := Some scenario_body |};
                    {| body := Some scenario_body |} ] /\
             In "cells" (issue_keywords i)).
Proof.
  split.
  - apply (proj1 counts_positive (∅, 0) {| body := Some scenario_body |})
      with (word := "cells").
    + intros word n Hn. cbn [fst] in Hn. rewrite lookup_empty in Hn.
      discriminate Hn.
    + vm_compute. reflexivity.
  - apply (proj2 counts_positive
             [ {| body := Some scenario_body |};
               {| body := Some scenario_body |} ] "cells" 2).
    vm_compute. reflexivity.
Defined.

(** ** Lowercased tokens *)

Lemma char_lower_not_upper (c : ascii) : not_upper (char_lower c) = true.
Proof. destruct c as [[] [] [] [] [] [] [] []]; reflexivity. Qed.

Lemma char_lower_fixed (c : ascii) : not_upper c = true -> char_lower c = c.
Proof.
  unfold not_upper, char_lower. intros H. apply negb_true_iff in H.
  rewrite H. reflexivity.
Qed.

Lemma sub_punct_char_not_upper (c : ascii) :
  not_upper c = true -> not_upper (sub_punct_char c) = true.
Proof.
  unfold sub_punct_char. intros H.
  destruct (char_isword c || char_isspace c || Ascii.eqb c hyphen);
    [exact H | reflexivity].
Qed.

Lemma str_forall_cons (p : ascii -> bool) (c : ascii) (s : string) :
  str_forall p (String c s) = true <-> p c = true /\ str_forall p s = true.
Proof. cbn [str_forall]. apply andb_true_iff. Qed.

Lemma str_forall_map (p : ascii -> bool) (f : ascii -> ascii) (s : string) :
  (forall c, p (f c) = true) -> str_forall p (str_map f s) = true.
Proof.
  intros Hf. induction s as [| c r IH]; [reflexivity |].
  cbn [str_map]. apply str_forall_cons. auto.
Qed.

Lemma str_forall_map_keep (p : ascii -> bool) (f : ascii -> ascii)
    (s : string) :
  (forall c, p c = true -> p (f c) = true) ->
  str_forall p s = true -> str_forall p (str_map f s) = true.
Proof.
  intros Hf. induction s as [| c r IH]; [reflexivity |].
  cbn [str_map]. rewrite !str_forall_cons. intros [Hc Hr]. auto.
Qed.

Lemma sub_numbers_from_forall (p : ascii -> bool) (s : string) :
  forall st,
    str_forall p s = true -> str_forall p (sub_numbers_from st s) = true.
Proof.
  induction s as [| c r IH]; intros st; [reflexivity |].
  rewrite str_forall_cons. intros [Hc Hr]. cbn [sub_numbers_from].
  destruct (char_isdigit c); [auto |].
  destruct (char_islower c).
  - destruct st; try (apply str_forall_cons; split); auto.
  - apply str_forall_cons. auto.
Qed.

Lemma lstrip_forall (p q : ascii -> bool) (s : string) :
  str_forall p s = true -> str_forall p (lstrip q s) = true.
Proof.
  induction s as [| c r IH]; [reflexivity |].
  intros H. cbn [lstrip]. destruct (q c); [| exact H].
  apply str_forall_cons in H. tauto.
Qed.

Lemma rstrip_forall (p q : ascii -> bool) (s : string) :
  str_forall p s = true -> str_forall p (rstrip q s) = true.
Proof.
  induction s as [| c r IH]; [reflexivity |].
  rewrite str_forall_cons. intros [Hc Hr]. cbn [rstrip].
  specialize (IH Hr). destruct (rstrip q r) as [| d r'].
  - destruct (q c); [reflexivity |]. apply str_forall_cons. auto.
  - apply str_forall_cons. auto.
Qed.

Lemma strip_forall (p : ascii -> bool) (chars s : string) :
  str_forall p s = true -> str_forall p (strip chars s) = true.
Proof. intros H. unfold strip. apply rstrip_forall, lstrip_forall, H. Qed.

Lemma split_forall (p : ascii -> bool) (s : string) :
  str_forall p s = true ->
  Forall (fun token => str_forall p token = true) (split s).
Proof.
  induction s as [| c r IH]; [constructor |].
  rewrite str_forall_cons. intros [Hc Hr]. specialize (IH Hr).
  cbn [split]. destruct (char_isspace c); [exact IH |].
  destruct r as [| d r'].
  - constructor; [| constructor]. apply str_forall_cons. auto.
  - destruct (char_isspace d).
    + constructor; [| exact IH]. apply str_forall_cons. auto.
    + destruct (split (String d r')) as [| t ts].
      * constructor; [| constructor]. apply str_forall_cons. auto.
      * inversion IH as [| ? ? Ht Hts]; subst.
        constructor; [| exact Hts]. apply str_forall_cons. auto.
Qed.

Lemma clean_text_not_upper (text : string) :
  str_forall not_upper (clean_text text) = true.
Proof.
  unfold clean_text, sub_punct, sub_numbers.
  apply str_forall_map_keep; [exact sub_punct_char_not_upper |].
  apply sub_numbers_from_forall.
  apply str_forall_map. exact char_lower_not_upper.
Qed.

Lemma lower_fixed (w : string) : str_forall not_upper w = true -> lower w = w.
Proof.
  unfold lower. induction w as [| c r IH]; [reflexivity |].
  rewrite str_forall_cons. intros [Hc Hr]. cbn [str_map].
  rewrite (char_lower_fixed c Hc), (IH Hr). reflexivity.
Qed.

(** On a token without uppercase letters the name heuristic is membership
    in the common-names set. *)
Lemma is_likely_name_lowercase (w : string) :
  str_forall not_upper w = true ->
  is_likely_name w = mem w COMMON_NAMES.
Proof.
  intros Hw. destruct w as [| c r].
  - symmetry. apply mem_false. exact empty_not_common_name.
  - rewrite is_likely_name_cons, (lower_fixed _ Hw).
    destruct (mem (String c r) COMMON_NAMES); [reflexivity |].
    apply str_forall_cons in Hw as [Hc _].
    unfold not_upper in Hc. apply negb_true_iff in Hc. rewrite Hc.
    reflexivity.
Qed.

(** C1, as the code has it.  A lowercased token whose index is out of range
    of the original-case token list is its own counterpart: the name
    heuristic runs on the stripped lowercased token, and holds exactly when
    that token is in the common-first-names set. *)
Theorem out_of_range_token_checked_as_lowercase
    (text : string) (i : nat) (word : string) :
  split (clean_text text) !! i = Some word ->
  length (split text) <= i ->
  orig_word_at (split text) i (strip_word word) = strip_word word /\
  is_likely_name (orig_word_at (split text) i (strip_word word))
  = mem (strip_word word) COMMON_NAMES.
Proof.
  intros Hword Hrange.
  assert (Horig : orig_word_at (split text) i (strip_word word)
                  = strip_word word).
  { unfold orig_word_at.
    apply Nat.ltb_ge in Hrange. rewrite Hrange. reflexivity. }
  split; [exact Horig |]. rewrite Horig.
  apply is_likely_name_lowercase. unfold strip_word. apply strip_forall.
  pose proof (split_forall not_upper _ (clean_text_not_upper text)) as Hall.
  rewrite Forall_forall in Hall. apply Hall.
  apply list_elem_of_lookup. eauto.
Qed.

Lemma out_of_range_token_checked_as_lowercase_witness :
  orig_word_at (split "x,cells") 1 (strip_word "cells") = strip_word "cells" /\
  is_likely_name (orig_word_at (split "x,cells") 1 (strip_word "cells"))
  = mem (strip_word "cells") COMMON_NAMES.
Proof.
  apply (out_of_range_token_checked_as_lowercase "x,cells" 1 "cells").
  - vm_compute. reflexivity.
  - vm_compute. lia.
Defined.

(** C1, as the spec states it, fails: in "x,john" the comma is replaced by a
    space, so the lowercased text has the two tokens "x" and "john" while the
    original text has the single token "x,john".  The token "john" at index 1
    has no original-case counterpart, passes the length, stop-word and digit
    filters, and is excluded by the name heuristic. *)
Lemma out_of_range_token_excluded_as_name :
  split "x,john" = ["x,john"] /\
  split (clean_text "x,john") = ["x"; "john"] /\
  length (split "x,john") <= 1 /\
  (3 <=? String.length "john") && negb (mem "john" STOP_WORDS) &&
    negb (isdigit "john") = true /\
  is_likely_name (orig_word_at (split "x,john") 1 (strip_word "john")) = true /\
  extract_keywords "x,john" = [] /\
  extract_keywords "x,cells" = ["cells"].
Proof.
  split; [reflexivity |].
  split; [vm_compute; reflexivity |].
  split; [vm_compute; lia |].
  split; [vm_compute; reflexivity |].
  split; [vm_compute; reflexivity |].
  split; vm_compute; reflexivity.
Qed.

(** ** Number stripping *)

Lemma append_cons (c : ascii) (s t : string) :
  String c s +:+ t = String c (s +:+ t).
Proof. reflexivity. Qed.

Lemma append_empty (t : string) : "" +:+ t = t.
Proof. reflexivity. Qed.

Lemma lower_not_digit (c : ascii) :
  char_islower c = true -> char_isdigit c = false.
Proof.
  unfold char_islower, char_isdigit. intros H.
  apply andb_prop in H as [H _]. apply Nat.leb_le in H.
  apply andb_false_iff. right. apply Nat.leb_gt. lia.
Qed.

(** Text without digits before a match is copied unchanged. *)
Lemma sub_numbers_prefix (a x : string) :
  str_exists char_isdigit a = false ->
  sub_numbers_from Outside (a +:+ x) = a +:+ sub_numbers_from Outside x.
Proof.
  induction a as [| c r IH]; [reflexivity |].
  cbn [str_exists]. intros H. apply orb_false_iff in H as [Hc Hr].
  rewrite !append_cons. cbn [sub_numbers_from]. rewrite Hc.
  rewrite (IH Hr). destruct (char_islower c); reflexivity.
Qed.

(** The digits of a match are dropped. *)
Lemma sub_numbers_digits (ds x : string) :
  forall st,
    str_forall char_isdigit ds = true ->
    sub_numbers_from st (ds +:+ x)
    = sub_numbers_from (if truthy ds then InDigits else st) x.
Proof.
  induction ds as [| c r IH]; intros st; [reflexivity |].
  rewrite str_forall_cons. intros [Hc Hr].
  rewrite append_cons. cbn [sub_numbers_from truthy]. rewrite Hc.
  rewrite (IH InDigits Hr). destruct (truthy r); reflexivity.
Qed.

(** So are the lowercase letters that follow them. *)
Lemma sub_numbers_letters (ls x : string) :
  forall st,
    st <> Outside ->
    str_forall char_islower ls = true ->
    exists st', st' <> Outside /\
      sub_numbers_from st (ls +:+ x) = sub_numbers_from st' x.
Proof.
  induction ls as [| c r IH]; intros st Hst; [eauto |].
  rewrite str_forall_cons. intros [Hc Hr].
  rewrite append_cons. cbn [sub_numbers_from].
  rewrite (lower_not_digit c Hc), Hc.
  destruct st; [congruence | |]; apply IH; (congruence || exact Hr).
Qed.

(** A match ends before a character that is not a lowercase letter. *)
Lemma sub_numbers_resume (b : string) (st : scan_state) :
  starts_with char_islower b = false ->
  sub_numbers_from st b = sub_numbers_from Outside b.
Proof.
  destruct b as [| c r]; [reflexivity |].
  cbn [starts_with sub_numbers_from]. intros ->. reflexivity.
Qed.

Lemma sub_numbers_no_digit (s : string) :
  forall st, str_exists char_isdigit (sub_numbers_from st s) = false.
Proof.
  induction s as [| c r IH]; intros st; [reflexivity |].
  cbn [sub_numbers_from].
  destruct (char_isdigit c) eqn:Hc; [apply IH |].
  destruct (char_islower c).
  - destruct st; try apply IH. cbn [str_exists]. rewrite Hc. apply IH.
  - cbn [str_exists]. rewrite Hc. apply IH.
Qed.

(** C7. A match of the numeric pattern (digits, then lowercase letters) is
    replaced by nothing: the text before it is joined directly to what
    follows, no digit survives, and for "pre2-op" the neighbours of the
    removed "2" form the single token "pre-op", which is no token of the
    source text. *)
Theorem numbers_removed_without_space :
  (forall a ds ls b,
     str_exists char_isdigit a = false ->
     truthy ds = true -> str_forall char_isdigit ds = true ->
     str_forall char_islower ls = true ->
     starts_with char_islower b = false ->
     sub_numbers (a +:+ ds +:+ ls +:+ b) = a +:+ sub_numbers b) /\
  (forall text, str_exists char_isdigit (sub_numbers text) = false) /\
  (sub_numbers (lower "pre2-op") = "pre-op" /\
   split "pre2-op" = ["pre2-op"] /\
   split (clean_text "pre2-op") = ["pre-op"] /\
   extract_keywords "pre2-op" = ["pre-op"]).
Proof.
  split.
  { intros a ds ls b Ha Hne Hds Hls Hb. unfold sub_numbers.
    rewrite (sub_numbers_prefix _ _ Ha). f_equal.
    rewrite (sub_numbers_digits _ _ _ Hds), Hne.
    destruct (sub_numbers_letters ls b InDigits ltac:(discriminate) Hls)
      as (st' & _ & ->).
    apply sub_numbers_resume, Hb. }
  split; [intros text; apply sub_numbers_no_digit |].
  split; [reflexivity |].
  split; [reflexivity |].
  split; vm_compute; reflexivity.
Qed.

Lemma numbers_removed_without_space_witness :
  sub_numbers ("scan of " +:+ "2023" +:+ "abc" +:+ " skulls")
  = "scan of " +:+ sub_numbers " skulls".
Proof.
  apply (proj1 numbers_removed_without_space); reflexivity.
Defined.

(** ** Scenarios *)

(** C8. For the body "### Description", a blank line, then "We need
    segmentation of cells using deep learning.", the extractor returns that
    sentence; its keywords include "segmentation" (a key of the canonical
    map, mapped to itself) and "cells" and exclude "need" and "using". *)
Theorem scenario_description_keywords :
  extract_description (Some scenario_body)
  = "We need segmentation of cells using deep learning." /\
  extract_keywords "We need segmentation of cells using deep learning."
  = ["segmentation"; "cells"; "deep"; "learning"] /\
  CANONICAL_FORMS !! "segmentation" = Some "segmentation" /\
  In "segmentation"
    (extract_keywords "We need segmentation of cells using deep learning.") /\
  In "cells"
    (extract_keywords "We need segmentation of cells using deep learning.") /\
  ~ In "need"
    (extract_keywords "We need segmentation of cells using deep learning.") /\
  ~ In "using"
    (extract_keywords "We need segmentation of cells using deep learning.").
Proof.
  assert (Hks : extract_keywords
                  "We need segmentation of cells using deep learning."
                = ["segmentation"; "cells"; "deep"; "learning"])
    by (vm_compute; reflexivity).
  rewrite Hks.
  split; [vm_compute; reflexivity |].
  split; [reflexivity |].
  split; [vm_compute; reflexivity |].
  cbn [In].
  split; [left; reflexivity |].
  split; [right; left; reflexivity |].
  split; intros [H | [H | [H | [H | []]]]]; discriminate H.
Qed.

(** ** Documents without a description *)

Lemma match_literal_sound (lit : string) :
  forall s rest,
    match_literal lit s = Some rest ->
    exists label, s = label +:+ rest /\ lower label = lower lit.
Proof.
  induction lit as [| a lit' IH]; intros s rest; cbn [match_literal].
  - intros [= ->]. exists "". split; reflexivity.
  - destruct s as [| c s']; [discriminate |].
    destruct (Ascii.eqb (char_lower a) (char_lower c)) eqn:Heq;
      [| discriminate].
    intros Hrest. apply IH in Hrest as (label & -> & Hlabel).
    apply Ascii.eqb_eq in Heq.
    exists (String c label). split; [reflexivity |].
    unfold lower in *. cbn [str_map]. rewrite Hlabel, Heq. reflexivity.
Qed.

Lemma match_literal_complete (lit : string) :
  forall label rest,
    lower label = lower lit ->
    match_literal lit (label +:+ rest) = Some rest.
Proof.
  unfold lower.
  induction lit as [| a lit' IH]; intros label rest Hlabel.
  - destruct label; [reflexivity | discriminate].
  - destruct label as [| c label']; [discriminate |].
    cbn [str_map] in Hlabel. injection Hlabel as Hc Hlabel.
    rewrite append_cons. cbn [match_literal].
    rewrite Hc, Ascii.eqb_refl. apply IH, Hlabel.
Qed.

Lemma match_blank_sound (s : string) :
  forall rest,
    match_blank s = Some rest ->
    exists blank,
      s = blank +:+ String newline (String newline rest) /\
      str_forall char_isspace blank = true.
Proof.
  induction s as [| c r IH]; intros rest; cbn [match_blank];
    [discriminate |].
  destruct (char_isspace c) eqn:Hspace.
  - destruct (match_blank r) as [rest' |] eqn:Hr.
    + intros [= ->]. destruct (IH rest eq_refl) as (blank & -> & Hblank).
      exists (String c blank). split; [reflexivity |].
      apply str_forall_cons. auto.
    + destruct r as [| d r']; [discriminate |].
      destruct (Ascii.eqb c newline && Ascii.eqb d newline) eqn:Hnl;
        [| discriminate].
      intros [= ->]. apply andb_prop in Hnl as [Hc Hd].
      apply Ascii.eqb_eq in Hc, Hd. subst c d.
      exists "". split; reflexivity.
  - destruct r as [| d r']; [discriminate |].
    destruct (Ascii.eqb c newline && Ascii.eqb d newline) eqn:Hnl;
      [| discriminate].
    intros [= ->]. apply andb_prop in Hnl as [Hc Hd].
    apply Ascii.eqb_eq in Hc, Hd. subst c d.
    exists "". split; reflexivity.
Qed.

Lemma match_blank_cons (c : ascii) (r : string) :
  match_blank (String c r) =
  match (if char_isspace c then match_blank r else None) with
  | Some rest => Some rest
  | None =>
      match r with
      | String d rest =>
          if Ascii.eqb c newline && Ascii.eqb d newline then Some rest
          else None
      | EmptyString => None
      end
  end.
Proof. reflexivity. Qed.

Lemma match_blank_complete (blank after : string) :
  str_forall char_isspace blank = true ->
  is_Some (match_blank (blank +:+ String newline (String newline after))).
Proof.
  induction blank as [| c r IH].
  - intros _. rewrite append_empty, match_blank_cons.
    destruct (if char_isspace newline
              then match_blank (String newline after) else None);
      [eauto | exists after; reflexivity].
  - rewrite str_forall_cons. intros [Hc Hr].
    rewrite append_cons, match_blank_cons, Hc.
    destruct (IH Hr) as [rest ->]. eauto.
Qed.

Lemma search_description_sound (s : string) :
  is_Some (search_description s) -> has_heading s.
Proof.
  induction s as [| c r IH].
  - cbn. intros [? [=]].
  - cbn [search_description].
    destruct (match_description (String c r)) as [group1 |] eqn:Hmatch.
    + intros _. unfold match_description in Hmatch.
      destruct (match_literal heading_label (String c r))
        as [after_label |] eqn:Hlabel; [| discriminate].
      destruct (match_blank after_label) as [content |] eqn:Hblank;
        [| discriminate].
      apply match_literal_sound in Hlabel as (label & Hs & Hlower).
      apply match_blank_sound in Hblank as (blank & -> & Hspace).
      exists "", label, blank, content. rewrite append_empty. auto.
    + intros Hr. destruct (IH Hr)
        as (before & label & blank & after & -> & Hlower & Hspace).
      exists (String c before), label, blank, after. auto.
Qed.

Lemma search_description_here (s group1 : string) :
  match_description s = Some group1 -> search_description s = Some group1.
Proof. intros H. destruct s; cbn [search_description]; rewrite H; reflexivity. Qed.

Lemma search_description_complete (s : string) :
  has_heading s -> is_Some (search_description s).
Proof.
  intros (before & label & blank & after & -> & Hlower & Hspace).
  induction before as [| c r IH].
  - rewrite append_empty.
    destruct (match_blank_complete blank after Hspace) as [rest Hrest].
    exists (match_section rest). apply search_description_here.
    unfold match_description.
    rewrite (match_literal_complete _ _ _ Hlower), Hrest. reflexivity.
  - rewrite append_cons. cbn [search_description].
    destruct (match_description _); eauto.
Qed.

Lemma extract_description_no_heading (b : string) :
  ~ has_heading b -> extract_description (Some b) = "".
Proof.
  intros Hnone. unfold extract_description.
  destruct (negb (truthy b)); [reflexivity |].
  destruct (search_description b) as [group1 |] eqn:Hsearch;
    [| reflexivity].
  exfalso. apply Hnone, search_description_sound. eauto.
Qed.

Lemma process_issue_no_description (st : gmap string nat * nat) (i : issue) :
  extract_description (body i) = "" -> process_issue st i = st.
Proof. unfold process_issue. intros ->. reflexivity. Qed.

(** C9. A document whose body is absent or empty, or has no Description
    heading, gives the empty string in the extractor and no keywords; the
    loop state is unchanged by it, and the table of a collection is that of
    the collection without the document. *)
Theorem no_description_contributes_nothing
    (i : issue) (before after : list issue) (st : gmap string nat * nat) :
  body i = None \/ body i = Some "" \/
    (exists b, body i = Some b /\ ~ has_heading b) ->
  extract_description (body i) = "" /\
  issue_keywords i = [] /\
  process_issue st i = st /\
  process_issues st (before ++ i :: after)
  = process_issues st (before ++ after) /\
  keyword_counts (before ++ i :: after) = keyword_counts (before ++ after).
Proof.
  intros Hbody.
  assert (Hdesc : extract_description (body i) = "").
  { destruct Hbody as [-> | [-> | (b & -> & Hnone)]];
      [reflexivity | reflexivity |].
    apply extract_description_no_heading, Hnone. }
  assert (Hskip : forall st', process_issue st' i = st')
    by (intros st'; apply process_issue_no_description, Hdesc).
  assert (Hloop : forall st',
            process_issues st' (before ++ i :: after)
            = process_issues st' (before ++ after)).
  { intros st'. unfold process_issues. rewrite !foldl_app.
    cbn [foldl]. rewrite Hskip. reflexivity. }
  split; [exact Hdesc |].
  split; [unfold issue_keywords; rewrite Hdesc; reflexivity |].
  split; [apply Hskip |].
  split; [apply Hloop |].
  unfold keyword_counts. rewrite Hloop. reflexivity.
Qed.

Lemma no_heading_example : ~ has_heading "Looking at CT scans of skulls".
Proof.
  intros Hheading. apply search_description_complete in Hheading.
  destruct Hheading as [group1 Hsearch]. vm_compute in Hsearch.
  discriminate Hsearch.
Qed.

Lemma no_description_contributes_nothing_witness :
  let i := {| body := Some "Looking at CT scans of skulls" |} in
  let A := {| body := Some scenario_body |} in
  extract_description (body i) = "" /\
  issue_keywords i = [] /\
  process_issue (∅, 0) i = (∅, 0) /\
  process_issues (∅, 0) ([A] ++ i :: [A])
  = process_issues (∅, 0) ([A] ++ [A]) /\
  keyword_counts ([A] ++ i :: [A]) = keyword_counts ([A] ++ [A]).
Proof.
  intros i A.
  apply (no_description_contributes_nothing i [A] [A] (∅, 0)).
  right. right. exists "Looking at CT scans of skulls".
  split; [reflexivity | exact no_heading_example].
Defined.

(** ** Stemming *)

Lemma append_empty_r (s : string) : s +:+ "" = s.
Proof.
  induction s as [| c r IH]; [reflexivity |].
  rewrite append_cons, IH. reflexivity.
Qed.


Lemma str_map_length (f : ascii -> ascii) (s : string) :
  String.length (str_map f s) = String.length s.
Proof.
  induction s as [| c r IH]; [reflexivity |].
  cbn [str_map String.length]. rewrite IH. reflexivity.
Qed.

Lemma substring_all (s : string) : substring 0 (String.length s) s = s.
Proof.
  induction s as [| c r IH]; [reflexivity |].
  cbn [String.length substring]. rewrite IH. reflexivity.
Qed.

(** A string is its first [n] characters followed by the rest. *)
Lemma substring_split (s : string) :
  forall n,
    n <= String.length s ->
    s = substring 0 n s +:+ substring n (String.length s - n) s.
Proof.
  induction s as [| c r IH]; intros n Hn.
  - cbn [String.length] in Hn. replace n with 0 by lia. reflexivity.
  - destruct n as [| n'].
    + rewrite Nat.sub_0_r, substring_all. reflexivity.
    + cbn [String.length] in *. cbn [substring Nat.sub].
      rewrite append_cons. f_equal. apply IH. lia.
Qed.

Lemma substring_prefix_length (s : string) :
  forall n, n <= String.length s -> String.length (substring 0 n s) = n.
Proof.
  induction s as [| c r IH]; intros n Hn.
  - cbn [String.length] in Hn. replace n with 0 by lia. reflexivity.
  - destruct n as [| n']; [reflexivity |].
    cbn [String.length] in *. cbn [substring String.length].
    rewrite IH by lia. reflexivity.
Qed.

(** [word.endswith(suffix)] holds exactly of a word that ends in [suffix],
    and [word[:-len(suffix)]] is what precedes it. *)
Lemma endswith_split (word suffix : string) :
  endswith word suffix = true ->
  word = substring 0 (String.length word - String.length suffix) word
         +:+ suffix.
Proof.
  unfold endswith. intros H. apply andb_prop in H as [Hlen Heq].
  apply Nat.leb_le in Hlen. apply String.eqb_eq in Heq.
  pose proof (substring_split word
                (String.length word - String.length suffix)
                ltac:(lia)) as Hsplit.
  replace (String.length word - (String.length word - String.length suffix))
    with (String.length suffix) in Hsplit by lia.
  rewrite Heq in Hsplit. exact Hsplit.
Qed.

Lemma stem_loop_split (word : string) (sfx : list string) :
  exists suffix,
    (suffix = "" \/ In suffix sfx) /\
    word = stem_loop word sfx +:+ suffix /\
    (suffix <> "" -> String.length suffix + 2 < String.length word).
Proof.
  induction sfx as [| suffix rest IH]; cbn [stem_loop].
  - exists "". rewrite append_empty_r. split; [auto |]. split; congruence.
  - destruct (endswith word suffix) eqn:Hends; cbn [andb].
    + destruct (String.length suffix + 2 <? String.length word) eqn:Hlen.
      * exists suffix. split; [right; left; reflexivity |].
        split; [apply endswith_split, Hends |].
        intros _. apply Nat.ltb_lt, Hlen.
      * destruct IH as (s & Hs & Heq & Hlong).
        exists s. split; [destruct Hs; [auto | right; right; auto] |]. auto.
    + destruct IH as (s & Hs & Heq & Hlong).
      exists s. split; [destruct Hs; [auto | right; right; auto] |]. auto.
Qed.

(** X1. [simple_stem] returns the lowercased word with at most one of the
    listed suffixes cut from its end; nothing else is changed. *)
Theorem simple_stem_cuts_one_suffix (word : string) :
  exists suffix,
    (suffix = "" \/ In suffix suffixes) /\
    lower word = simple_stem word +:+ suffix.
Proof.
  unfold simple_stem.
  destruct (stem_loop_split (lower word) suffixes) as (s & Hs & Heq & _).
  exists s. auto.
Qed.



(** ** The extracted description *)

Lemma lstrip_starts (p : ascii -> bool) (s : string) :
  starts_with p (lstrip p s) = false.
Proof.
  induction s as [| c r IH]; [reflexivity |].
  cbn [lstrip]. destruct (p c) eqn:Hc; [exact IH |].
  cbn [starts_with]. exact Hc.
Qed.

Lemma rstrip_starts (p : ascii -> bool) (s : string) :
  starts_with p s = false -> starts_with p (rstrip p s) = false.
Proof.
  destruct s as [| c r]; [reflexivity |].
  cbn [starts_with rstrip]. intros Hc.
  destruct (rstrip p r); [rewrite Hc |]; cbn [starts_with]; exact Hc.
Qed.

Lemma rstrip_ends (p : ascii -> bool) (s : string) :
  ends_with p (rstrip p s) = false.
Proof.
  induction s as [| c r IH]; [reflexivity |].
  cbn [rstrip]. destruct (rstrip p r) as [| d r'].
  - destruct (p c) eqn:Hc; [reflexivity |]. cbn [ends_with]. exact Hc.
  - exact IH.
Qed.

Lemma strip_space_trimmed (s : string) :
  starts_with char_isspace (strip_space s) = false /\
  ends_with char_isspace (strip_space s) = false.
Proof.
  unfold strip_space. split.
  - apply rstrip_starts, lstrip_starts.
  - apply rstrip_ends.
Qed.

(** X3. The description returned by [extract_description] has no white
    space at its start or at its end. *)
Theorem extract_description_trimmed (body_text : option string) :
  starts_with char_isspace (extract_description body_text) = false /\
  ends_with char_isspace (extract_description body_text) = false.
Proof.
  unfold extract_description.
  destruct body_text as [b |]; [| split; reflexivity].
  destruct (negb (truthy b)); [split; reflexivity |].
  destruct (search_description b); [| split; reflexivity].
  apply strip_space_trimmed.
Qed.

Lemma prefix_empty (s : string) : String.prefix "" s = true.
Proof. destruct s; reflexivity. Qed.

Lemma prefix_append (needle : string) :
  forall a b,
    String.prefix needle a = true -> String.prefix needle (a +:+ b) = true.
Proof.
  induction needle as [| x needle' IH]; intros a b.
  - intros _. apply prefix_empty.
  - destruct a as [| y a']; [discriminate |].
    rewrite append_cons. cbn [String.prefix].
    destruct (ascii_dec x y); [apply IH | discriminate].
Qed.

Lemma contains_cons (needle : string) (c : ascii) (r : string) :
  contains needle (String c r) = false <->
  String.prefix needle (String c r) = false /\ contains needle r = false.
Proof. cbn [contains]. apply orb_false_iff. Qed.

Lemma contains_append_l (needle a b : string) :
  contains needle (a +:+ b) = false -> contains needle a = false.
Proof.
  induction a as [| c r IH].
  - rewrite append_empty. intros Hb.
    destruct (String.prefix needle "") eqn:Hp; cbn [contains];
      rewrite Hp; [| reflexivity].
    apply (prefix_append _ _ b) in Hp. rewrite append_empty in Hp.
    destruct b; cbn [contains] in Hb; rewrite Hp in Hb; discriminate Hb.
  - rewrite append_cons, !contains_cons. intros [Hp Hr].
    split; [| apply IH, Hr].
    destruct (String.prefix needle (String c r)) eqn:Hp'; [| reflexivity].
    apply (prefix_append _ _ b) in Hp'. rewrite append_cons in Hp'.
    congruence.
Qed.

Lemma lstrip_contains (needle : string) (p : ascii -> bool) (s : string) :
  contains needle s = false -> contains needle (lstrip p s) = false.
Proof.
  induction s as [| c r IH]; [auto |].
  intros H. cbn [lstrip]. destruct (p c); [| exact H].
  apply contains_cons in H. tauto.
Qed.

Lemma rstrip_split (p : ascii -> bool) (s : string) :
  exists tail, s = rstrip p s +:+ tail.
Proof.
  induction s as [| c r IH]; [exists ""; reflexivity |].
  destruct IH as [tail Htail]. cbn [rstrip].
  destruct (rstrip p r) as [| d r'].
  - destruct (p c).
    + exists (String c r). reflexivity.
    + exists tail. rewrite append_cons, <- Htail. reflexivity.
  - exists tail. rewrite append_cons, <- Htail. reflexivity.
Qed.

Lemma strip_space_contains (needle s : string) :
  contains needle s = false -> contains needle (strip_space s) = false.
Proof.
  intros H. unfold strip_space.
  apply (lstrip_contains _ char_isspace) in H.
  destruct (rstrip_split char_isspace (lstrip char_isspace s)) as [tail Ht].
  rewrite Ht in H. exact (contains_append_l _ _ _ H).
Qed.

Lemma match_section_cons (c : ascii) (r : string) :
  match_section (String c r) =
  if String.prefix next_heading (String c r) then ""
  else String c (match_section r).
Proof. reflexivity. Qed.

Lemma match_section_split (s : string) :
  exists tail, s = match_section s +:+ tail.
Proof.
  induction s as [| c r IH]; [exists ""; reflexivity |].
  rewrite match_section_cons.
  destruct (String.prefix next_heading (String c r)).
  - exists (String c r). reflexivity.
  - destruct IH as [tail Htail]. exists tail.
    rewrite append_cons, <- Htail. reflexivity.
Qed.

(** The lazy group never runs over a next-heading marker. *)
Lemma match_section_no_heading (s : string) :
  contains next_heading (match_section s) = false.
Proof.
  induction s as [| c r IH]; [reflexivity |].
  rewrite match_section_cons.
  destruct (String.prefix next_heading (String c r)) eqn:Hp;
    [reflexivity |].
  apply contains_cons. split; [| exact IH].
  destruct (String.prefix next_heading (String c (match_section r)))
    eqn:Hp'; [| reflexivity].
  destruct (match_section_split r) as [tail Htail].
  apply (prefix_append _ _ tail) in Hp'.
  rewrite append_cons, <- Htail in Hp'. congruence.
Qed.

(** X5. The description returned by [extract_description] contains no
    next-heading marker (a line feed followed by "### "): the text of a
    later section never leaks in behind one. *)
Theorem extract_description_within_section (body_text : option string) :
  contains next_heading (extract_description body_text) = false.
Proof.
  unfold extract_description.
  destruct body_text as [b |]; [| reflexivity].
  destruct (negb (truthy b)); [reflexivity |].
  destruct (search_description b) as [group1 |] eqn:Hsearch;
    [| reflexivity].
  apply strip_space_contains.
  assert (Hgroup : exists content, group1 = match_section content).
  { clear -Hsearch. induction b as [| c r IH].
    - cbn in Hsearch. discriminate.
    - cbn [search_description] in Hsearch.
      destruct (match_description (String c r)) as [g |] eqn:Hm.
      + injection Hsearch as <-. unfold match_description in Hm.
        destruct (match_literal heading_label (String c r)) as [a |];
          [| discriminate].
        destruct (match_blank a) as [content |]; [| discriminate].
        injection Hm as <-. eauto.
      + apply IH, Hsearch. }
  destruct Hgroup as [content ->]. apply match_section_no_heading.
Qed.

Lemma not_space_not_newline (c : ascii) :
  char_isspace c = false -> Ascii.eqb c newline = false.
Proof.
  intros Hc. destruct (Ascii.eqb_spec c newline) as [-> |];
    [discriminate Hc | reflexivity].
Qed.

(** Content that does not start with white space is not reached by the
    white space of the heading line. *)
Lemma match_blank_before_content (content : string) :
  starts_with char_isspace content = false ->
  match_blank content = None /\
  match_blank (String newline content) = None.
Proof.
  intros Hstart.
  assert (Hnone : match_blank content = None).
  { destruct content as [| c r]; [reflexivity |].
    cbn [starts_with] in Hstart. rewrite match_blank_cons, Hstart.
    rewrite (not_space_not_newline c Hstart).
    destruct r; reflexivity. }
  split; [exact Hnone |].
  rewrite match_blank_cons, Hnone.
  change (char_isspace newline) with true. cbv iota.
  destruct content as [| c r]; [reflexivity |].
  cbn [starts_with] in Hstart.
  rewrite (not_space_not_newline c Hstart), andb_false_r. reflexivity.
Qed.

Lemma match_blank_content (blank content : string) :
  str_forall char_isspace blank = true ->
  starts_with char_isspace content = false ->
  match_blank (blank +:+ String newline (String newline content))
  = Some content.
Proof.
  intros Hblank Hstart.
  induction blank as [| c r IH].
  - rewrite append_empty, match_blank_cons.
    rewrite (proj2 (match_blank_before_content content Hstart)).
    reflexivity.
  - apply str_forall_cons in Hblank as [Hc Hr].
    rewrite append_cons, match_blank_cons, Hc, (IH Hr). reflexivity.
Qed.

Lemma match_section_whole (content : string) :
  contains next_heading content = false ->
  match_section content = content.
Proof.
  induction content as [| c r IH]; [reflexivity |].
  rewrite contains_cons, match_section_cons. intros [-> Hr].
  rewrite (IH Hr). reflexivity.
Qed.

(** A next-heading marker cannot begin inside the last characters of the
    content and end inside the marker that follows it. *)
Lemma prefix_no_straddle (content more : string) :
  truthy content = true ->
  String.prefix next_heading content = false ->
  String.prefix next_heading (content +:+ next_heading +:+ more) = false.
Proof.
  unfold next_heading.
  destruct content as [| c1 [| c2 [| c3 [| c4 [| c5 r]]]]];
    [discriminate | | | | |]; intros _;
    rewrite ?append_cons, ?append_empty; cbn [String.prefix];
    repeat match goal with
           | |- context [ascii_dec ?a ?b] =>
               destruct (ascii_dec a b); try discriminate; try reflexivity
           end;
    rewrite ?prefix_empty; auto.
Qed.

Lemma match_section_until (content more : string) :
  contains next_heading content = false ->
  match_section (content +:+ next_heading +:+ more) = content.
Proof.
  induction content as [| c r IH].
  - intros _. rewrite append_empty. unfold next_heading at 1.
    rewrite append_cons, match_section_cons.
    change (String newline ("### " +:+ more)) with (next_heading +:+ more).
    rewrite (prefix_append next_heading next_heading more eq_refl).
    reflexivity.
  - rewrite contains_cons. intros [Hp Hr].
    assert (Hno := prefix_no_straddle (String c r) more eq_refl Hp).
    rewrite append_cons in Hno |- *.
    rewrite match_section_cons, Hno, (IH Hr). reflexivity.
Qed.

Lemma lower_label_nonempty (label : string) :
  lower label = lower heading_label -> truthy label = true.
Proof. destruct label; [discriminate | reflexivity]. Qed.

Lemma extract_description_at_start (label blank content group1 : string) :
  lower label = lower heading_label ->
  str_forall char_isspace blank = true ->
  starts_with char_isspace content = false ->
  match_section content = group1 ->
  extract_description
    (Some (label +:+ blank +:+ String newline (String newline content)))
  = strip_space group1.
Proof.
  intros Hlabel Hblank Hstart Hgroup.
  unfold extract_description.
  destruct label as [| c l]; [discriminate Hlabel |].
  rewrite append_cons. cbn [truthy negb]. rewrite <- append_cons.
  rewrite (search_description_here _ group1); [reflexivity |].
  unfold match_description.
  rewrite (match_literal_complete _ _ _ Hlabel).
  rewrite (match_blank_content _ _ Hblank Hstart), Hgroup. reflexivity.
Qed.

(** X4. A body that opens with the heading (in any letter case), white
    space and a blank line gives back its content, trimmed: up to the end of
    the body, or up to the next heading marker when one follows.  The content
    must not start with white space nor contain a heading marker itself. *)
Theorem extract_description_returns_content
    (label blank content more : string) :
  lower label = lower heading_label ->
  str_forall char_isspace blank = true ->
  starts_with char_isspace content = false ->
  contains next_heading content = false ->
  extract_description
    (Some (label +:+ blank +:+ String newline (String newline content)))
  = strip_space content /\
  (truthy content = true ->
   extract_description
     (Some (label +:+ blank +:+
            String newline (String newline
              (content +:+ next_heading +:+ more))))
   = strip_space content).
Proof.
  intros Hlabel Hblank Hstart Hfree. split.
  - apply extract_description_at_start; auto.
    apply match_section_whole, Hfree.
  - intros Hne. apply extract_description_at_start; auto.
    + destruct content as [| c r]; [discriminate Hne |]. exact Hstart.
    + apply match_section_until, Hfree.
Qed.

Lemma extract_description_returns_content_witness :
  extract_description
    (Some ("### DESCRIPTION" +:+ " " +:+
           String newline (String newline "CT scans of skulls ")))
  = strip_space "CT scans of skulls " /\
  extract_description
    (Some ("### description" +:+ "" +:+
           String newline (String newline
             ("CT scans" +:+ next_heading +:+ "Other"))))
  = strip_space "CT scans".
Proof.
  split.
  - apply (extract_description_returns_content
             "### DESCRIPTION" " " "CT scans of skulls " ""); reflexivity.
  - apply (extract_description_returns_content
             "### description" "" "CT scans" "Other"); reflexivity.
Defined.

(** X6. An empty description section that is directly followed by the next
    heading does not give the empty string: the white space before the blank
    line is taken greedily, so the next section, heading line included, is
    returned. *)
Theorem empty_description_takes_next_section (label blank more : string) :
  lower label = lower heading_label ->
  str_forall char_isspace blank = true ->
  contains next_heading ("### " +:+ more) = false ->
  extract_description
    (Some (label +:+ blank +:+
           String newline (String newline (next_heading +:+ more))))
  = strip_space ("### " +:+ more).
Proof.
  intros Hlabel Hblank Hfree.
  assert (Hbody :
            blank +:+ String newline (String newline (next_heading +:+ more))
            = (blank +:+ String newline "") +:+
              String newline (String newline ("### " +:+ more))).
  { clear. induction blank as [| c r IH]; [reflexivity |].
    rewrite !append_cons, IH. reflexivity. }
  rewrite Hbody.
  apply extract_description_at_start; auto.
  - clear -Hblank. induction blank as [| c r IH]; [reflexivity |].
    apply str_forall_cons in Hblank as [Hc Hr].
    rewrite append_cons. apply str_forall_cons. auto.
  - apply match_section_whole, Hfree.
Qed.

Lemma empty_description_takes_next_section_witness :
  extract_description
    (Some ("### Description" +:+ "" +:+
           String newline (String newline (next_heading +:+ "Email"))))
  = strip_space ("### " +:+ "Email").
Proof.
  apply (empty_description_takes_next_section "### Description" "" "Email");
    reflexivity.
Defined.

(** ** Membership by comparison *)

Lemma stop_words_as_list (word : string) :
  word ∈ STOP_WORDS <-> In word stop_word_list.
Proof.
  rewrite <- list_elem_of_In. unfold STOP_WORDS, stop_word_list.
  apply elem_of_list_to_set.
Qed.

Lemma common_names_as_list (word : string) :
  word ∈ COMMON_NAMES <-> In word common_name_list.
Proof.
  rewrite <- list_elem_of_In. unfold COMMON_NAMES, common_name_list.
  apply elem_of_list_to_set.
Qed.

Lemma not_in_by_comparison (word : string) (l : list string) :
  existsb (String.eqb word) l = false -> ~ In word l.
Proof.
  intros Hnone Hin.
  assert (Hsome : existsb (String.eqb word) l = true).
  { apply existsb_exists. exists word. split; [exact Hin |].
    apply String.eqb_refl. }
  congruence.
Qed.

Lemma example_issue_keywords :
  truthy (extract_description (body example_issue)) = true /\
  issue_keywords example_issue = ["micro"; "scans"; "skulls"; "john"].
Proof.
  assert (Hdesc : extract_description (body example_issue)
                  = "micro2CT scans of 3D Skulls from John, MRI 2023data")
    by (vm_compute; reflexivity).
  unfold issue_keywords. rewrite Hdesc.
  split; [reflexivity | exact extract_keywords_misaligned].
Qed.

(** ** The shape of emitted keywords *)

Lemma str_forall_impl (p q : ascii -> bool) (s : string) :
  (forall c, p c = true -> q c = true) ->
  str_forall p s = true -> str_forall q s = true.
Proof.
  intros Himp. induction s as [| c r IH]; [reflexivity |].
  rewrite !str_forall_cons. intros [Hc Hr]. auto.
Qed.

Lemma str_forall_and (p q : ascii -> bool) (s : string) :
  str_forall p s = true -> str_forall q s = true ->
  str_forall (fun c => p c && q c) s = true.
Proof.
  induction s as [| c r IH]; [reflexivity |].
  rewrite !str_forall_cons. intros [Hp Hpr] [Hq Hqr].
  split; [rewrite Hp, Hq; reflexivity | auto].
Qed.

Lemma str_forall_map_impl (p q : ascii -> bool) (f : ascii -> ascii)
    (s : string) :
  (forall c, p c = true -> q (f c) = true) ->
  str_forall p s = true -> str_forall q (str_map f s) = true.
Proof.
  intros Hf. induction s as [| c r IH]; [reflexivity |].
  cbn [str_map]. rewrite !str_forall_cons. intros [Hc Hr]. auto.
Qed.

Lemma sub_numbers_from_not_digit (s : string) :
  forall st,
    str_forall (fun c => negb (char_isdigit c)) (sub_numbers_from st s)
    = true.
Proof.
  induction s as [| c r IH]; intros st; [reflexivity |].
  cbn [sub_numbers_from].
  destruct (char_isdigit c) eqn:Hc; [apply IH |].
  destruct (char_islower c).
  - destruct st; try apply IH.
    apply str_forall_cons. rewrite Hc. auto.
  - apply str_forall_cons. rewrite Hc. auto.
Qed.

Lemma underscore_code (c : ascii) :
  (code c =? 95) = true -> Ascii.eqb c "_"%char = true.
Proof.
  intros H. apply Nat.eqb_eq in H. unfold code in H.
  apply Ascii.eqb_eq. rewrite <- (ascii_nat_embedding c), H. reflexivity.
Qed.

Lemma sub_punct_char_clean (c : ascii) :
  not_upper c && negb (char_isdigit c) = true ->
  clean_char (sub_punct_char c) = true.
Proof.
  unfold not_upper, sub_punct_char. intros H.
  apply andb_prop in H as [Hup Hdig].
  apply negb_true_iff in Hup, Hdig.
  destruct (char_isword c || char_isspace c || Ascii.eqb c hyphen) eqn:Hkeep;
    [| reflexivity].
  unfold clean_char, keyword_char. unfold char_isword in Hkeep.
  rewrite Hup, Hdig in Hkeep. cbn [orb] in Hkeep.
  destruct (char_isspace c); [reflexivity |].
  destruct (char_islower c); [reflexivity |].
  destruct (Ascii.eqb c hyphen); [apply orb_true_r |].
  cbn [orb] in *. rewrite !orb_false_r in *.
  apply underscore_code, Hkeep.
Qed.

Lemma clean_text_chars (text : string) :
  str_forall clean_char (clean_text text) = true.
Proof.
  unfold clean_text, sub_punct.
  apply (str_forall_map_impl
           (fun c => not_upper c && negb (char_isdigit c)));
    [exact sub_punct_char_clean |].
  unfold sub_numbers. apply str_forall_and.
  - apply sub_numbers_from_forall, str_forall_map, char_lower_not_upper.
  - apply sub_numbers_from_not_digit.
Qed.

(** The tokens of [split] contain no white space. *)
Lemma split_no_space (s : string) :
  Forall (fun token =>
            str_forall (fun c => negb (char_isspace c)) token = true)
    (split s).
Proof.
  induction s as [| c r IH]; [constructor |].
  cbn [split]. destruct (char_isspace c) eqn:Hc; [exact IH |].
  destruct r as [| d r'].
  - constructor; [| constructor]. cbn [str_forall]. rewrite Hc. reflexivity.
  - destruct (char_isspace d).
    + constructor; [| exact IH]. cbn [str_forall]. rewrite Hc. reflexivity.
    + destruct (split (String d r')) as [| t ts].
      * constructor; [| constructor].
        cbn [str_forall]. rewrite Hc. reflexivity.
      * inversion IH as [| ? ? Ht Hts]; subst.
        constructor; [| exact Hts].
        apply str_forall_cons. rewrite Hc. auto.
Qed.

Lemma clean_token_chars (text word : string) :
  In word (split (clean_text text)) ->
  str_forall keyword_char word = true.
Proof.
  intros Hin. apply list_elem_of_In in Hin.
  pose proof (split_forall clean_char _ (clean_text_chars text)) as Hclean.
  pose proof (split_no_space (clean_text text)) as Hspace.
  rewrite Forall_forall in Hclean, Hspace.
  specialize (Hclean _ Hin). specialize (Hspace _ Hin).
  pose proof (str_forall_and _ _ _ Hclean Hspace) as Hboth.
  revert Hboth. apply str_forall_impl. intros c.
  unfold clean_char. destruct (char_isspace c); [discriminate |].
  cbn [orb negb]. rewrite andb_true_r. auto.
Qed.

Lemma passing_from_token (original_words words : list string) :
  forall i word,
    In word (passing_from original_words i words) ->
    exists token, In token words /\ word = strip_word token.
Proof.
  induction words as [| w rest IH]; intros i word;
    cbn [passing_from In]; [tauto |].
  destruct (keep_word _ _); cbn [In].
  - intros [<- | Hin]; [eauto |].
    destruct (IH _ _ Hin) as (token & Htoken & ->). eauto.
  - intros Hin. destruct (IH _ _ Hin) as (token & Htoken & ->). eauto.
Qed.

Lemma emitted_keyword_origin (text keyword : string) :
  In keyword (extract_keywords text) ->
  exists token orig_word,
    In token (split (clean_text text)) /\
    keep_word (strip_word token) orig_word = true /\
    keyword = canonical_form (strip_word token).
Proof.
  rewrite extract_keywords_passing, in_map_iff.
  intros (word & <- & Hin). unfold passing_tokens in Hin.
  destruct (passing_from_keep _ _ _ _ Hin) as [orig_word Hkeep].
  destruct (passing_from_token _ _ _ _ Hin) as (token & Htoken & ->).
  eauto.
Qed.

(** X7. Every emitted keyword is made of lowercase letters, underscores
    and hyphens only: it holds no uppercase letter, digit, white space,
    quote, comma or other punctuation. *)
Theorem keyword_alphabet (text keyword : string) :
  In keyword (extract_keywords text) ->
  str_forall keyword_char keyword = true.
Proof.
  intros Hin.
  apply emitted_keyword_origin in Hin
    as (token & orig_word & Htoken & _ & ->).
  unfold canonical_form.
  destruct (CANONICAL_FORMS !! strip_word token) as [canonical |] eqn:Hc.
  - apply canonical_entries in Hc as [-> | ->]; reflexivity.
  - unfold strip_word. apply strip_forall.
    exact (clean_token_chars _ _ Htoken).
Qed.

Lemma keyword_alphabet_witness :
  str_forall keyword_char "scans" = true.
Proof.
  apply (keyword_alphabet
           "micro2CT scans of 3D Skulls from John, MRI 2023data" "scans").
  rewrite extract_keywords_misaligned. right. left. reflexivity.
Defined.

(** X8. No emitted keyword starts or ends with a hyphen. *)
Theorem keyword_no_outer_hyphen (text keyword : string) :
  In keyword (extract_keywords text) ->
  starts_with (char_in "-") keyword = false /\
  ends_with (char_in "-") keyword = false.
Proof.
  intros Hin.
  apply emitted_keyword_origin in Hin
    as (token & orig_word & _ & _ & ->).
  unfold canonical_form.
  destruct (CANONICAL_FORMS !! strip_word token) as [canonical |] eqn:Hc.
  - apply canonical_entries in Hc as [-> | ->]; split; reflexivity.
  - unfold strip_word, strip. split.
    + apply rstrip_starts, lstrip_starts.
    + apply rstrip_ends.
Qed.

Lemma keyword_no_outer_hyphen_witness :
  starts_with (char_in "-") "micro" = false /\
  ends_with (char_in "-") "micro" = false.
Proof.
  apply (keyword_no_outer_hyphen
           "micro2CT scans of 3D Skulls from John, MRI 2023data" "micro").
  rewrite extract_keywords_misaligned. left. reflexivity.
Defined.

Lemma canonical_values_not_stop (v : string) :
  v = "segmentation" \/ v = "morphometrics" -> v ∉ STOP_WORDS.
Proof.
  intros Hv. rewrite stop_words_as_list. apply not_in_by_comparison.
  destruct Hv as [-> | ->]; vm_compute; reflexivity.
Qed.

(** X9. No emitted keyword, and so no key of the frequency table, is a stop
    word. *)
Theorem keyword_not_stop_word :
  (forall text keyword,
     In keyword (extract_keywords text) -> keyword ∉ STOP_WORDS) /\
  (forall issues keyword,
     is_Some (keyword_counts issues !! keyword) -> keyword ∉ STOP_WORDS).
Proof.
  assert (Hemit : forall text keyword,
             In keyword (extract_keywords text) -> keyword ∉ STOP_WORDS).
  { intros text keyword Hin.
    apply emitted_keyword_origin in Hin
      as (token & orig_word & _ & Hkeep & ->).
    unfold canonical_form.
    destruct (CANONICAL_FORMS !! strip_word token) as [canonical |] eqn:Hc.
    - apply canonical_values_not_stop, (canonical_entries _ _ Hc).
    - apply keep_word_length in Hkeep. tauto. }
  split; [exact Hemit |].
  intros issues keyword [n Hn].
  apply keyword_counts_present in Hn as (_ & _ & Hin).
  apply in_all_keywords in Hin as (i & _ & Hin).
  exact (Hemit _ _ Hin).
Qed.

Lemma keyword_not_stop_word_witness :
  ("skulls" ∉ STOP_WORDS) /\ ("skulls" ∉ STOP_WORDS).
Proof.
  split.
  - apply (proj1 keyword_not_stop_word
             "micro2CT scans of 3D Skulls from John, MRI 2023data").
    rewrite extract_keywords_misaligned. right. right. left. reflexivity.
  - apply (proj2 keyword_not_stop_word [example_issue]).
    exists 1. rewrite lookup_keyword_counts.
    unfold all_keywords. cbn [map concat].
    rewrite (proj2 example_issue_keywords). reflexivity.
Defined.

(** X10. Every emitted keyword is its own canonical form, so the variants
    that the canonical-form map rewrites ("segment", "segments",
    "segmenting", "morphometric") are never emitted and never become keys
    of the frequency table. *)
Theorem keyword_is_canonical (text keyword : string) :
  In keyword (extract_keywords text) ->
  canonical_form keyword = keyword /\
  forall canonical,
    CANONICAL_FORMS !! keyword = Some canonical -> canonical = keyword.
Proof.
  intros Hin.
  apply emitted_keyword_origin in Hin
    as (token & orig_word & _ & _ & ->).
  assert (Hfix : canonical_form (canonical_form (strip_word token))
                 = canonical_form (strip_word token)).
  { unfold canonical_form at 2 3.
    destruct (CANONICAL_FORMS !! strip_word token) as [v |] eqn:Hv.
    - unfold canonical_form.
      rewrite (canonical_values_fixed v (canonical_entries _ _ Hv)).
      reflexivity.
    - unfold canonical_form. rewrite Hv. reflexivity. }
  split; [exact Hfix |].
  intros canonical Hc. unfold canonical_form in Hfix at 1.
  rewrite Hc in Hfix. exact Hfix.
Qed.

Lemma keyword_is_canonical_witness :
  canonical_form "scans" = "scans" /\
  forall canonical,
    CANONICAL_FORMS !! "scans" = Some canonical -> canonical = "scans".
Proof.
  apply (keyword_is_canonical
           "micro2CT scans of 3D Skulls from John, MRI 2023data" "scans").
  rewrite extract_keywords_misaligned. right. left. reflexivity.
Defined.

(** ** Short tokens and clean text *)

Lemma common_names_long (name : string) :
  name ∈ COMMON_NAMES -> 3 <= String.length name.
Proof.
  intros Hin. apply common_names_as_list in Hin.
  assert (Hall : forallb (fun n => 3 <=? String.length n) common_name_list
                 = true)
    by (vm_compute; reflexivity).
  rewrite forallb_forall in Hall.
  apply Nat.leb_le. exact (Hall name Hin).
Qed.

(** X11. The name heuristic never flags a token of one or two characters:
    no common first name is that short, and the capital-letter rule asks for
    more than two characters. *)
Theorem short_token_never_name (word : string) :
  String.length word <= 2 -> is_likely_name word = false.
Proof.
  intros Hlen. destruct word as [| c r]; [reflexivity |].
  rewrite is_likely_name_cons.
  destruct (mem (lower (String c r)) COMMON_NAMES) eqn:Hname.
  - apply mem_true, common_names_long in Hname.
    unfold lower in Hname. rewrite str_map_length in Hname. lia.
  - apply Nat.ltb_ge in Hlen. rewrite Hlen, andb_false_r. reflexivity.
Qed.

Lemma short_token_never_name_witness : is_likely_name "Al" = false.
Proof. apply short_token_never_name. cbn. lia. Defined.

Lemma str_map_fixed (f : ascii -> ascii) (p : ascii -> bool) (s : string) :
  (forall c, p c = true -> f c = c) ->
  str_forall p s = true -> str_map f s = s.
Proof.
  intros Hf. induction s as [| c r IH]; [reflexivity |].
  rewrite str_forall_cons. intros [Hc Hr]. cbn [str_map].
  rewrite (Hf c Hc), (IH Hr). reflexivity.
Qed.

Lemma keyword_char_classes (c : ascii) :
  keyword_char c = true ->
  char_isupper c = false /\ char_isdigit c = false /\
  char_isspace c = false /\ (char_isword c || Ascii.eqb c hyphen) = true.
Proof.
  unfold keyword_char. intros H.
  apply orb_prop in H as [H | H]; [apply orb_prop in H as [H | H] |].
  - unfold char_isword. rewrite H.
    unfold char_islower in H. apply andb_prop in H as [H1 H2].
    apply Nat.leb_le in H1, H2.
    unfold char_isupper, char_isdigit, char_isspace.
    repeat split;
      repeat match goal with
             | |- context [?a <=? ?b] =>
                 destruct (Nat.leb_spec a b); try lia
             | |- context [?a =? ?b] =>
                 destruct (Nat.eqb_spec a b); try lia
             end; reflexivity.
  - apply Ascii.eqb_eq in H. subst c. repeat split.
  - apply Ascii.eqb_eq in H. subst c. repeat split.
Qed.

Lemma clean_char_classes (c : ascii) :
  clean_char c = true ->
  char_isupper c = false /\ char_isdigit c = false /\
  (char_isword c || char_isspace c || Ascii.eqb c hyphen) = true.
Proof.
  unfold clean_char. destruct (char_isspace c) eqn:Hs; cbn [orb].
  - intros _. rewrite orb_true_r. cbn [orb].
    unfold char_isspace in Hs. unfold char_isupper, char_isdigit.
    split; [| split; [| reflexivity]];
      repeat match goal with
             | H : context [?a <=? ?b] |- _ =>
                 destruct (Nat.leb_spec a b); cbn [andb orb] in H
             | H : context [?a =? ?b] |- _ =>
                 destruct (Nat.eqb_spec a b); cbn [andb orb] in H
             end; try discriminate;
      repeat match goal with
             | |- context [?a <=? ?b] =>
                 destruct (Nat.leb_spec a b); try lia
             end; try reflexivity.
  - intros Hk. apply keyword_char_classes in Hk as (Hu & Hd & _ & Hw).
    split; [exact Hu |]. split; [exact Hd |].
    rewrite orb_false_r. exact Hw.
Qed.

Lemma clean_text_fixed (text : string) :
  str_forall clean_char text = true -> clean_text text = text.
Proof.
  intros Hclean. unfold clean_text.
  assert (Hlower : lower text = text).
  { apply lower_fixed. revert Hclean. apply str_forall_impl.
    intros c Hc. apply clean_char_classes in Hc as (Hu & _ & _).
    unfold not_upper. rewrite Hu. reflexivity. }
  assert (Hnum : sub_numbers text = text).
  { unfold sub_numbers.
    rewrite <- (append_empty_r text) at 1.
    rewrite sub_numbers_prefix; [apply append_empty_r |].
    clear Hlower. induction text as [| c r IH]; [reflexivity |].
    apply str_forall_cons in Hclean as [Hc Hr].
    apply clean_char_classes in Hc as (_ & Hd & _).
    cbn [str_exists]. rewrite Hd. exact (IH Hr). }
  rewrite Hlower, Hnum. unfold sub_punct.
  apply (str_map_fixed _ clean_char); [| exact Hclean].
  intros c Hc. apply clean_char_classes in Hc as (_ & _ & Hkeep).
  unfold sub_punct_char. rewrite Hkeep. reflexivity.
Qed.

(** X12. Cleaning is idempotent: lowercasing, number stripping and
    punctuation replacement leave an already cleaned text unchanged. *)
Theorem clean_text_idempotent (text : string) :
  clean_text (clean_text text) = clean_text text.
Proof. apply clean_text_fixed, clean_text_chars. Qed.

Lemma split_keyword_chars (s word : string) :
  str_forall clean_char s = true ->
  In word (split s) -> str_forall keyword_char word = true.
Proof.
  intros Hs Hin. apply list_elem_of_In in Hin.
  pose proof (split_forall clean_char _ Hs) as Hclean.
  pose proof (split_no_space s) as Hspace.
  rewrite Forall_forall in Hclean, Hspace.
  pose proof (str_forall_and _ _ _ (Hclean _ Hin) (Hspace _ Hin)) as Hboth.
  revert Hboth. apply str_forall_impl. intros c.
  unfold clean_char. destruct (char_isspace c); [discriminate |].
  cbn [orb negb]. rewrite andb_true_r. auto.
Qed.

Lemma lstrip_ext (p q : ascii -> bool) (s : string) :
  str_forall (fun c => Bool.eqb (p c) (q c)) s = true ->
  lstrip p s = lstrip q s.
Proof.
  induction s as [| c r IH]; [reflexivity |].
  rewrite str_forall_cons. intros [Hc Hr]. cbn [lstrip].
  apply Bool.eqb_prop in Hc. rewrite Hc, (IH Hr). reflexivity.
Qed.

Lemma rstrip_ext (p q : ascii -> bool) (s : string) :
  str_forall (fun c => Bool.eqb (p c) (q c)) s = true ->
  rstrip p s = rstrip q s.
Proof.
  induction s as [| c r IH]; [reflexivity |].
  rewrite str_forall_cons. intros [Hc Hr]. cbn [rstrip].
  apply Bool.eqb_prop in Hc. rewrite Hc, (IH Hr). reflexivity.
Qed.

(** On keyword characters the punctuation of [strip('-.,!?;:')] strips
    what [strip('-')] strips. *)
Lemma keyword_char_strip_sets (c : ascii) :
  keyword_char c = true ->
  Bool.eqb (char_in "-.,!?;:" c) (char_in "-" c) = true.
Proof.
  unfold keyword_char. intros H.
  apply orb_prop in H as [H | H]; [apply orb_prop in H as [H | H] |];
    [| apply Ascii.eqb_eq in H; subst c; reflexivity
     | apply Ascii.eqb_eq in H; subst c; reflexivity].
  unfold char_in. cbn [str_exists].
  repeat match goal with
         | |- context [Ascii.eqb c ?x] =>
             destruct (Ascii.eqb_spec c x) as [-> | _];
             [discriminate H |]
         end.
  reflexivity.
Qed.

Lemma strip_keyword_chars (word : string) :
  str_forall keyword_char word = true ->
  strip "-.,!?;:" word = strip_word word.
Proof.
  intros Hword. unfold strip_word, strip.
  assert (Hext : forall s,
             str_forall keyword_char s = true ->
             str_forall (fun c => Bool.eqb (char_in "-.,!?;:" c)
                                    (char_in "-" c)) s = true).
  { intros s. apply str_forall_impl. exact keyword_char_strip_sets. }
  rewrite (lstrip_ext _ (char_in "-") word (Hext _ Hword)).
  apply rstrip_ext, Hext, lstrip_forall, Hword.
Qed.

Lemma keyword_chars_not_digits (word : string) :
  str_forall keyword_char word = true -> isdigit word = false.
Proof.
  destruct word as [| c r]; [reflexivity |].
  rewrite str_forall_cons. intros [Hc _].
  apply keyword_char_classes in Hc as (_ & Hd & _).
  unfold isdigit. cbn [truthy str_forall andb]. rewrite Hd. reflexivity.
Qed.

Lemma keep_word_plain (token : string) :
  str_forall keyword_char token = true ->
  keep_word (strip_word token) (strip "-.,!?;:" token)
  = plain_keep (strip_word token).
Proof.
  intros Htoken.
  assert (Hword : str_forall keyword_char (strip_word token) = true)
    by (apply strip_forall, Htoken).
  unfold keep_word, plain_keep.
  rewrite (strip_keyword_chars _ Htoken).
  rewrite (keyword_chars_not_digits _ Hword).
  rewrite is_likely_name_lowercase.
  - generalize (3 <=? String.length (strip_word token))
      (mem (strip_word token) STOP_WORDS)
      (mem (strip_word token) COMMON_NAMES).
    intros [] [] []; reflexivity.
  - revert Hword. apply str_forall_impl. intros c Hc.
    apply keyword_char_classes in Hc as (Hu & _).
    unfold not_upper. rewrite Hu. reflexivity.
Qed.

(** When both token lists are the same list, position [i] of the loop reads
    the token itself. *)
Lemma passing_from_aligned (words : list string) :
  forall before,
    passing_from (before ++ words) (length before) words
    = map strip_word
        (List.filter
           (fun token => keep_word (strip_word token)
                           (strip "-.,!?;:" token))
           words).
Proof.
  induction words as [| w rest IH]; intros before; [reflexivity |].
  cbn [passing_from List.filter].
  assert (Horig : orig_word_at (before ++ w :: rest) (length before)
                    (strip_word w)
                  = strip "-.,!?;:" w).
  { unfold orig_word_at.
    assert (Hlt : (length before <? length (before ++ w :: rest)) = true).
    { apply Nat.ltb_lt. rewrite length_app. cbn [length]. lia. }
    rewrite Hlt, nth_middle. reflexivity. }
  rewrite Horig.
  specialize (IH (before ++ [w])).
  rewrite <- app_assoc, length_app in IH. cbn [app length] in IH.
  replace (length before + 1) with (S (length before)) in IH by lia.
  rewrite IH.
  destruct (keep_word (strip_word w) (strip "-.,!?;:" w)); reflexivity.
Qed.

Lemma filter_map_strip (words : list string) :
  map strip_word
    (List.filter (fun token => plain_keep (strip_word token)) words)
  = List.filter plain_keep (map strip_word words).
Proof.
  induction words as [| w rest IH]; [reflexivity |].
  cbn [List.filter map].
  destruct (plain_keep (strip_word w)); cbn [map]; rewrite IH; reflexivity.
Qed.

(** X13. On text that is already clean (lowercase letters, underscores,
    hyphens and white space only) the two token lists coincide and the
    normalizer is a plain filter: the hyphen-stripped tokens of at least
    three characters that are neither stop words nor common first names, in
    order, each in canonical form. *)
Theorem extract_keywords_of_clean_text (text : string) :
  str_forall clean_char text = true ->
  extract_keywords text
  = map canonical_form
      (List.filter plain_keep (map strip_word (split text))).
Proof.
  intros Hclean.
  rewrite extract_keywords_passing. f_equal.
  unfold passing_tokens. rewrite (clean_text_fixed _ Hclean).
  pose proof (passing_from_aligned (split text) []) as Haligned.
  cbn [app length] in Haligned. rewrite Haligned.
  rewrite <- filter_map_strip. f_equal.
  apply filter_ext_in. intros token Hin.
  apply keep_word_plain, (split_keyword_chars text); assumption.
Qed.

Lemma extract_keywords_of_clean_text_witness :
  extract_keywords "john scans --micro-ct-- of segments"
  = map canonical_form
      (List.filter plain_keep
         (map strip_word (split "john scans --micro-ct-- of segments"))).
Proof. apply extract_keywords_of_clean_text. reflexivity. Defined.

(** ** Counts and totals *)

Lemma count_of_keyword_counts (issues : list issue) (word : string) :
  count_of (keyword_counts issues) word
  = occurrences word (all_keywords issues).
Proof.
  unfold count_of. rewrite lookup_keyword_counts. unfold updated_count.
  destruct (occurrences word (all_keywords issues)); reflexivity.
Qed.

(** X14. The count of a keyword is the number of times it is emitted over
    all documents, repeats within one document included; a keyword that is
    never emitted has no entry. *)
Theorem count_is_number_of_occurrences (issues : list issue) (word : string) :
  count_of (keyword_counts issues) word
  = occurrences word (all_keywords issues) /\
  (keyword_counts issues !! word = None <->
   ~ In word (all_keywords issues)).
Proof.
  split; [apply count_of_keyword_counts |].
  rewrite lookup_keyword_counts, <- occurrences_pos. unfold updated_count.
  destruct (occurrences word (all_keywords issues)).
  - split; [lia | reflexivity].
  - split; [discriminate | lia].
Qed.

(** X15. The set of keys of the frequency table is the set of emitted
    keywords. *)
Theorem keys_are_emitted_keywords (issues : list issue) :
  dom (keyword_counts issues) = list_to_set (all_keywords issues).
Proof.
  apply set_eq. intros word.
  rewrite elem_of_dom, elem_of_list_to_set, list_elem_of_In.
  rewrite <- occurrences_pos, lookup_keyword_counts. unfold updated_count.
  destruct (occurrences word (all_keywords issues)).
  - split; [intros [n Hn]; discriminate Hn | lia].
  - split; [lia | eauto].
Qed.

Lemma all_keywords_cons (i : issue) (issues : list issue) :
  all_keywords (i :: issues) = issue_keywords i ++ all_keywords issues.
Proof. reflexivity. Qed.

Lemma all_keywords_app (xs ys : list issue) :
  all_keywords (xs ++ ys) = all_keywords xs ++ all_keywords ys.
Proof.
  induction xs as [| x xs IH]; [reflexivity |].
  cbn [app]. rewrite !all_keywords_cons, IH, app_assoc. reflexivity.
Qed.

Lemma occurrences_all_keywords_perm (word : string)
    (issues issues' : list issue) :
  Permutation issues issues' ->
  occurrences word (all_keywords issues)
  = occurrences word (all_keywords issues').
Proof.
  induction 1 as [| x l l' _ IH | x y l | l l' l'' _ IH1 _ IH2].
  - reflexivity.
  - rewrite !all_keywords_cons, !occurrences_app, IH. reflexivity.
  - rewrite !all_keywords_cons, !occurrences_app. lia.
  - congruence.
Qed.

(** X16. The frequency table does not depend on the order of the
    documents: any reordering of the collection gives the same table. *)
Theorem keyword_counts_order_independent (issues issues' : list issue) :
  Permutation issues issues' ->
  keyword_counts issues = keyword_counts issues'.
Proof.
  intros Hperm. apply map_eq. intros word.
  rewrite !lookup_keyword_counts.
  rewrite (occurrences_all_keywords_perm word _ _ Hperm). reflexivity.
Qed.

Lemma keyword_counts_order_independent_witness :
  keyword_counts [ {| body := Some scenario_body |}; {| body := None |};
                   {| body := Some "" |} ]
  = keyword_counts [ {| body := Some "" |}; {| body := Some scenario_body |};
                     {| body := None |} ].
Proof.
  apply keyword_counts_order_independent.
  symmetry.
  apply (Permutation_cons_append
           [ {| body := Some scenario_body |}; {| body := None |} ]
           {| body := Some "" |}).
Defined.

(** X17. Counts add up over batches: in the table of two collections put
    together, each keyword's count is the sum of its counts in the tables of
    the two collections. *)
Theorem keyword_counts_additive (xs ys : list issue) (word : string) :
  count_of (keyword_counts (xs ++ ys)) word
  = count_of (keyword_counts xs) word + count_of (keyword_counts ys) word.
Proof.
  rewrite !count_of_keyword_counts, all_keywords_app.
  apply occurrences_app.
Qed.

Lemma total_count_empty : total_count ∅ = 0.
Proof. unfold total_count. apply map_fold_empty. Qed.

Lemma total_count_insert (counts : gmap string nat) (word : string)
    (n : nat) :
  counts !! word = None ->
  total_count (<[word := n]> counts) = n + total_count counts.
Proof.
  intros Hnone. unfold total_count.
  rewrite map_fold_insert_L; [reflexivity | | exact Hnone].
  intros. lia.
Qed.

Lemma total_count_one (counts : gmap string nat) (word : string) :
  total_count (count_one counts word) = S (total_count counts).
Proof.
  unfold count_one.
  destruct (counts !! word) as [n |] eqn:Hword; cbn [default].
  - rewrite <- (insert_delete_eq counts word (S n)).
    rewrite <- (insert_delete_id counts word n Hword) at 2.
    rewrite !total_count_insert by apply lookup_delete_eq. lia.
  - rewrite total_count_insert by exact Hword. lia.
Qed.

Lemma total_count_update (keywords : list string) :
  forall counts,
    total_count (update counts keywords)
    = total_count counts + length keywords.
Proof.
  unfold update.
  induction keywords as [| k rest IH]; intros counts; cbn [foldl length].
  - lia.
  - rewrite IH, total_count_one. lia.
Qed.

(** X18. The counts of the frequency table add up to the number of
    keywords emitted over all documents: no occurrence is lost or counted
    twice. *)
Theorem total_count_is_keywords_emitted (issues : list issue) :
  total_count (keyword_counts issues) = length (all_keywords issues).
Proof.
  unfold keyword_counts.
  rewrite process_issues_counts, total_count_update. cbn [fst].
  rewrite total_count_empty. reflexivity.
Qed.

Lemma process_issues_processed (issues : list issue) :
  forall st,
    snd (process_issues st issues)
    = snd st
      + length (List.filter
                  (fun i => truthy (extract_description (body i))) issues).
Proof.
  unfold process_issues.
  induction issues as [| i rest IH]; intros st; cbn [foldl List.filter].
  - cbn [length]. lia.
  - rewrite IH. unfold process_issue.
    destruct (truthy (extract_description (body i))); cbn [snd length]; lia.
Qed.

(** X19. [processed_count] is the number of documents with a non-empty
    description, whether or not they yield a keyword; it is at most the
    number of documents, and a document whose description holds only stop
    words is counted although it adds nothing to the table. *)
Theorem processed_count_is_described_documents (issues : list issue) :
  snd (process_issues (∅, 0) issues)
  = length (List.filter
              (fun i => truthy (extract_description (body i))) issues) /\
  snd (process_issues (∅, 0) issues) <= length issues /\
  (forall i,
     truthy (extract_description (body i)) = true ->
     issue_keywords i = [] ->
     process_issues (∅, 0) [i] = (∅, 1)).
Proof.
  split; [apply (process_issues_processed issues (∅, 0)) |].
  split.
  - rewrite (process_issues_processed issues (∅, 0)). cbn [snd].
    apply filter_length_le.
  - intros i Hdesc Hnone. unfold process_issues, process_issue.
    cbn [foldl]. rewrite Hdesc. unfold issue_keywords in Hnone.
    rewrite Hnone. reflexivity.
Qed.

Lemma processed_count_is_described_documents_witness :
  process_issues (∅, 0)
    [ {| body := Some ("### Description" +:+
                       String newline (String newline "to be or so")) |} ]
  = (∅, 1).
Proof.
  apply (proj2 (proj2 (processed_count_is_described_documents []))).
  - vm_compute. reflexivity.
  - vm_compute. reflexivity.
Defined.

(** ** The ordered table and the report *)

Lemma items_count_one_keys (items : list (string * nat)) (word : string) :
  (items_count_one items word).*1
  = if decide (word ∈ items.*1) then items.*1 else items.*1 ++ [word].
Proof.
  induction items as [| [k n] rest IH]; cbn [items_count_one].
  - rewrite decide_False by apply not_elem_of_nil. reflexivity.
  - destruct (String.eqb_spec k word) as [-> | Hne].
    + cbn [fmap list_fmap fst].
      rewrite decide_True by apply list_elem_of_here. reflexivity.
    + rewrite !fmap_cons, IH. cbn [fst].
      destruct (decide (word ∈ rest.*1)) as [Hin | Hout].
      * rewrite decide_True by (apply list_elem_of_further, Hin).
        reflexivity.
      * rewrite decide_False; [reflexivity |].
        rewrite elem_of_cons. intros [-> | Hin]; [congruence | auto].
Qed.

Lemma items_count_one_map (items : list (string * nat)) (word : string) :
  (list_to_map (items_count_one items word) : gmap string nat)
  = count_one (list_to_map items) word.
Proof.
  unfold count_one.
  induction items as [| [k n] rest IH]; cbn [items_count_one].
  - cbn [list_to_map foldr uncurry fst snd]. rewrite lookup_empty.
    reflexivity.
  - destruct (String.eqb_spec k word) as [-> | Hne].
    + rewrite !list_to_map_cons, lookup_insert_eq. cbn [default].
      rewrite insert_insert_eq. reflexivity.
    + rewrite !list_to_map_cons, IH.
      rewrite lookup_insert_ne by exact Hne.
      apply insert_insert_ne. exact Hne.
Qed.

Lemma items_count_one_nodup (items : list (string * nat)) (word : string) :
  NoDup items.*1 -> NoDup (items_count_one items word).*1.
Proof.
  intros Hnd. rewrite items_count_one_keys.
  destruct (decide (word ∈ items.*1)) as [Hin | Hout]; [exact Hnd |].
  apply NoDup_app. split; [exact Hnd |]. split.
  - intros x Hx Hw. apply list_elem_of_singleton in Hw. subst. auto.
  - apply NoDup_singleton.
Qed.

Lemma items_update_spec (keywords : list string) :
  forall items,
    NoDup items.*1 ->
    (list_to_map (items_update items keywords) : gmap string nat)
    = update (list_to_map items) keywords /\
    NoDup (items_update items keywords).*1 /\
    (items_update items keywords).*1
    = foldl (fun seen word => if decide (word ∈ seen) then seen
                              else seen ++ [word])
        items.*1 keywords.
Proof.
  unfold items_update, update.
  induction keywords as [| k rest IH]; intros items Hnd; cbn [foldl].
  - auto.
  - destruct (IH (items_count_one items k)
                (items_count_one_nodup _ _ Hnd)) as (Hmap & Hnd' & Hkeys).
    split; [rewrite Hmap, items_count_one_map; reflexivity |].
    split; [exact Hnd' |].
    rewrite Hkeys, items_count_one_keys. reflexivity.
Qed.

Lemma counter_items_update (issues : list issue) :
  forall items,
    foldl process_issue_items items issues
    = items_update items (all_keywords issues).
Proof.
  induction issues as [| i rest IH]; intros items; [reflexivity |].
  cbn [foldl]. rewrite IH, all_keywords_cons.
  unfold items_update at 2. rewrite foldl_app.
  unfold process_issue_items, issue_keywords.
  destruct (extract_description (body i)); reflexivity.
Qed.

Lemma counter_items_spec (issues : list issue) :
  (list_to_map (counter_items issues) : gmap string nat)
  = keyword_counts issues /\
  NoDup (counter_items issues).*1 /\
  (counter_items issues).*1 = first_seen (all_keywords issues).
Proof.
  unfold counter_items, keyword_counts, first_seen.
  rewrite counter_items_update, process_issues_counts. cbn [fst].
  destruct (items_update_spec (all_keywords issues) [] (NoDup_nil_2))
    as (Hmap & Hnd & Hkeys).
  rewrite Hmap. auto.
Qed.

Lemma counter_items_lookup (issues : list issue) (word : string) (n : nat) :
  (word, n) ∈ counter_items issues <->
  keyword_counts issues !! word = Some n.
Proof.
  destruct (counter_items_spec issues) as (Hmap & Hnd & _).
  rewrite <- Hmap. apply elem_of_list_to_map, Hnd.
Qed.

Lemma insert_ranked_perm (x : string * nat) (l : list (string * nat)) :
  insert_ranked x l ≡ₚ x :: l.
Proof.
  induction l as [| y l' IH]; cbn [insert_ranked]; [reflexivity |].
  destruct (snd y <=? snd x); [reflexivity |].
  rewrite IH. apply Permutation_swap.
Qed.

Lemma ranked_perm (items : list (string * nat)) : ranked items ≡ₚ items.
Proof.
  unfold ranked. induction items as [| x l IH]; cbn [foldr]; [reflexivity |].
  rewrite insert_ranked_perm, IH. reflexivity.
Qed.

Lemma insert_ranked_descending (x : string * nat)
    (l : list (string * nat)) :
  descending l -> descending (insert_ranked x l).
Proof.
  unfold descending.
  induction l as [| y l' IH]; intros Hsorted; cbn [insert_ranked].
  - constructor; constructor.
  - inversion Hsorted as [| ? ? Hl' Hy]; subst.
    destruct (Nat.leb_spec (snd y) (snd x)) as [Hle | Hgt].
    + constructor; [exact Hsorted |].
      constructor; [exact Hle |].
      rewrite Forall_forall in Hy |- *. intros z Hz.
      specialize (Hy z Hz). cbn beta in Hy. lia.
    + constructor; [apply IH, Hl' |].
      rewrite (insert_ranked_perm x l').
      constructor; [lia | exact Hy].
Qed.

Lemma ranked_descending (items : list (string * nat)) :
  descending (ranked items).
Proof.
  unfold ranked. induction items as [| x l IH]; cbn [foldr].
  - constructor.
  - apply insert_ranked_descending, IH.
Qed.

(** Ranking moves an entry only past entries of larger count. *)
Lemma insert_ranked_stable (n : nat) (x : string * nat)
    (l : list (string * nat)) :
  filter (fun e => snd e = n) (insert_ranked x l)
  = filter (fun e => snd e = n) (x :: l).
Proof.
  induction l as [| y l' IH]; cbn [insert_ranked]; [reflexivity |].
  destruct (Nat.leb_spec (snd y) (snd x)) as [Hle | Hgt]; [reflexivity |].
  rewrite filter_cons, IH, !filter_cons.
  destruct (decide (snd y = n)) as [Hy | Hy];
    destruct (decide (snd x = n)) as [Hx | Hx]; try reflexivity.
  lia.
Qed.

Lemma ranked_stable (n : nat) (items : list (string * nat)) :
  filter (fun e => snd e = n) (ranked items)
  = filter (fun e => snd e = n) items.
Proof.
  unfold ranked. induction items as [| x l IH]; cbn [foldr]; [reflexivity |].
  rewrite insert_ranked_stable, !filter_cons, IH. reflexivity.
Qed.

Lemma filter_keys_by_count (counts : gmap string nat)
    (items : list (string * nat)) (n : nat) :
  Forall (fun e => count_of counts (fst e) = snd e) items ->
  (filter (fun e => snd e = n) items).*1
  = filter (fun word => count_of counts word = n) items.*1.
Proof.
  induction 1 as [| e l He _ IH]; [reflexivity |].
  rewrite fmap_cons, !filter_cons, He.
  destruct (decide (snd e = n)); [rewrite fmap_cons |]; rewrite IH;
    reflexivity.
Qed.

Lemma main_outcome_report (issues : list issue)
    (top : list (nat * (string * nat))) (rows : list (string * nat)) :
  main_outcome issues = Report top rows ->
  rows = ranked (counter_items issues) /\
  top = imap (fun i entry => (S i, entry)) (take 50 rows).
Proof.
  unfold main_outcome.
  destruct (counter_items issues) as [| e l]; [discriminate |].
  intros [= <- <-]. auto.
Qed.

(** X20. The rows written to the CSV file are exactly the entries of the
    frequency table, each keyword once, with counts from largest to
    smallest; keywords with the same count appear in the order in which
    they were first emitted. *)
Theorem csv_rows_are_the_ranked_table (issues : list issue)
    (top : list (nat * (string * nat))) (rows : list (string * nat)) :
  main_outcome issues = Report top rows ->
  (forall word n,
     (word, n) ∈ rows <-> keyword_counts issues !! word = Some n) /\
  NoDup rows.*1 /\
  descending rows /\
  (forall n,
     (filter (fun e => snd e = n) rows).*1
     = filter (fun word => count_of (keyword_counts issues) word = n)
         (first_seen (all_keywords issues))).
Proof.
  intros Hreport. apply main_outcome_report in Hreport as [-> _].
  destruct (counter_items_spec issues) as (Hmap & Hnd & Hkeys).
  split.
  { intros word n. rewrite ranked_perm. apply counter_items_lookup. }
  split.
  { rewrite ranked_perm. exact Hnd. }
  split; [apply ranked_descending |].
  intros n. rewrite ranked_stable, <- Hkeys.
  apply filter_keys_by_count. apply Forall_forall. intros [word m] Hin.
  apply counter_items_lookup in Hin. unfold count_of. cbn [fst snd].
  rewrite Hin. reflexivity.
Qed.

Lemma example_report :
  main_outcome [example_issue; example_issue]
  = Report
      [(1, ("micro", 2)); (2, ("scans", 2)); (3, ("skulls", 2));
       (4, ("john", 2))]
      [("micro", 2); ("scans", 2); ("skulls", 2); ("john", 2)].
Proof.
  unfold main_outcome, counter_items. rewrite counter_items_update.
  unfold all_keywords. cbn [map concat].
  rewrite (proj2 example_issue_keywords). reflexivity.
Qed.

Lemma csv_rows_are_the_ranked_table_witness :
  descending [("micro", 2); ("scans", 2); ("skulls", 2); ("john", 2)].
Proof.
  exact (proj1 (proj2 (proj2
           (csv_rows_are_the_ranked_table _ _ _ example_report)))).
Defined.

Lemma descending_split (l1 l2 : list (string * nat)) :
  descending (l1 ++ l2) ->
  forall a b, a ∈ l1 -> b ∈ l2 -> snd b <= snd a.
Proof.
  unfold descending. induction l1 as [| x l1 IH]; intros Hsorted a b Ha Hb.
  - apply not_elem_of_nil in Ha. contradiction.
  - cbn [app] in Hsorted. inversion Hsorted as [| ? ? Hrest Hx]; subst.
    apply elem_of_cons in Ha as [-> | Ha].
    + rewrite Forall_forall in Hx. apply Hx.
      apply elem_of_app. right. exact Hb.
    + exact (IH Hrest a b Ha Hb).
Qed.

(** X21. The printed listing numbers the ranked entries from 1 without a
    gap, has fifty entries or, when the table has fewer keys, all of them,
    and no keyword left out of the listing has a larger count than a listed
    one. *)
Theorem top_listing_holds_the_largest_counts (issues : list issue)
    (top : list (nat * (string * nat))) (rows : list (string * nat)) :
  main_outcome issues = Report top rows ->
  length top = Nat.min 50 (size (keyword_counts issues)) /\
  top.*1 = seq 1 (length top) /\
  top.*2 = take 50 rows /\
  (forall listed unlisted,
     listed ∈ top.*2 -> unlisted ∈ drop 50 rows ->
     snd unlisted <= snd listed).
Proof.
  intros Hreport.
  pose proof (main_outcome_report _ _ _ Hreport) as [Hrows ->].
  destruct (counter_items_spec issues) as (Hmap & Hnd & _).
  assert (Hsnd : (imap (fun i entry => (S i, entry)) (take 50 rows)).*2
                 = take 50 rows).
  { generalize (take 50 rows). intros l.
    change (fun i entry => (S i, entry))
      with (fun i (entry : string * nat) => ((fun j => S j) i, entry)).
    generalize (fun j : nat => S j). induction l as [| e l IH]; intros g.
    - reflexivity.
    - rewrite imap_cons, fmap_cons. cbn [snd]. f_equal. apply (IH (g ∘ S)). }
  split.
  { rewrite length_imap, length_take. f_equal.
    rewrite Hrows, ranked_perm, <- Hmap.
    rewrite <- (length_fmap fst), <- (size_dom (D := gset string)).
    rewrite dom_list_to_map_L, size_list_to_set; [reflexivity | exact Hnd]. }
  split.
  { rewrite length_imap. generalize (take 50 rows). intros l.
    change (fun i entry => (S i, entry))
      with (fun i (entry : string * nat) => ((fun j => 1 + j) i, entry)).
    generalize 1. induction l as [| e l IH]; intros k; [reflexivity |].
    rewrite imap_cons, fmap_cons. cbn [fst length seq].
    rewrite Nat.add_0_r. f_equal.
    rewrite <- (IH (S k)). f_equal. apply imap_ext. intros i x _.
    cbn. f_equal. lia. }
  split; [exact Hsnd |].
  rewrite Hsnd. intros listed unlisted Hl Hu.
  apply (descending_split (take 50 rows) (drop 50 rows)); auto.
  rewrite take_drop, Hrows. apply ranked_descending.
Qed.

Lemma top_listing_holds_the_largest_counts_witness :
  length [(1, ("micro", 2)); (2, ("scans", 2)); (3, ("skulls", 2));
          (4, ("john", 2))]
  = Nat.min 50 (size (keyword_counts [example_issue; example_issue])).
Proof.
  exact (proj1 (top_listing_holds_the_largest_counts _ _ _
                  example_report)).
Defined.

Lemma items_count_one_nonempty (items : list (string * nat))
    (word : string) :
  items_count_one items word <> [].
Proof.
  destruct items as [| [k n] rest]; cbn [items_count_one];
    [discriminate |].
  destruct (String.eqb k word); discriminate.
Qed.

Lemma items_update_nonempty (keywords : list string) :
  forall items, items <> [] -> items_update items keywords <> [].
Proof.
  unfold items_update.
  induction keywords as [| k rest IH]; intros items Hne; cbn [foldl].
  - exact Hne.
  - apply IH, items_count_one_nonempty.
Qed.

(** X22. [main] stops with "No keywords found!", before any listing or file
    is produced, exactly when no document emits a keyword; this is so for
    the empty collection and for a collection in which no document has a
    description. *)
Theorem no_keywords_outcome (issues : list issue) :
  (main_outcome issues = NoKeywords <-> all_keywords issues = []) /\
  main_outcome [] = NoKeywords /\
  (Forall (fun i => extract_description (body i) = "") issues ->
   main_outcome issues = NoKeywords).
Proof.
  assert (Hiff : forall l,
             main_outcome l = NoKeywords <-> all_keywords l = []).
  { intros l. unfold main_outcome, counter_items.
    rewrite counter_items_update.
    destruct (all_keywords l) as [| k rest] eqn:Hall.
    - split; reflexivity.
    - unfold items_update. cbn [foldl].
      pose proof (items_update_nonempty rest _
                    (items_count_one_nonempty [] k)) as Hne.
      unfold items_update in Hne.
      destruct (foldl items_count_one (items_count_one [] k) rest);
        [congruence |]. split; discriminate. }
  split; [apply Hiff |]. split; [reflexivity |].
  intros Hnone. apply Hiff.
  induction Hnone as [| i l Hi _ IH]; [reflexivity |].
  rewrite all_keywords_cons, IH. unfold issue_keywords. rewrite Hi.
  reflexivity.
Qed.

Lemma no_keywords_outcome_witness :
  main_outcome [ {| body := None |}; {| body := Some "no heading" |} ]
  = NoKeywords.
Proof.
  apply (proj2 (proj2 (no_keywords_outcome _))).
  repeat constructor.
Defined.
